(** * Harmony wire format: encoder, tool-namespace renderer and parsers

    A shallow embedding of the TypeScript snippets that make up the
    Harmony layer of the assistant:

    - [toolsToTypeScriptNamespace], [renderHarmonyMessage],
      [encodeHarmonyConversation] and [parseHarmony]
      (GPT OSS Harmony Prompt Modification Guide);
    - [HarmonyEncoder.renderMessage], [HarmonyEncoder.convertToHarmonyFormat],
      [convertToolsToTypeScript] and [parseHarmonyResponse]
      (GPT OSS Harmony Implementation Improvement Guide).

    JavaScript strings are sequences of UTF-16 code units; they are
    modelled as lists of [N].  Regular expressions are kept as syntax
    trees and run by a backtracking matcher that follows the priority
    order of the ECMAScript matcher for the constructs the sources use.
    [JSON.parse] is a parameter of the parsers; a reference decoder
    instantiates it on concrete responses.  The streaming parser, which
    the sources do not have, is modelled from the specification.

    Definitions come first, properties after them. *)

From Stdlib Require Import List NArith ZArith Bool Arith Lia String Ascii.
Import ListNotations.

Set Implicit Arguments.

(** ** JavaScript strings *)

Definition jschar := N.
Definition jsstring := list jschar.

(** An ASCII literal of the source text as a sequence of code units. *)
Definition lit (s : string) : jsstring :=
  map N_of_ascii (list_ascii_of_string s).

Definition jschar_eqb (a b : jschar) : bool := N.eqb a b.

Fixpoint jsstring_eqb (a b : jsstring) : bool :=
  match a, b with
  | [], [] => true
  | x :: a', y :: b' => jschar_eqb x y && jsstring_eqb a' b'
  | _, _ => false
  end.

(** [Array.prototype.join]. *)
Fixpoint join (sep : jsstring) (parts : list jsstring) : jsstring :=
  match parts with
  | [] => []
  | [p] => p
  | p :: rest => p ++ sep ++ join sep rest
  end.

(** [String.prototype.split] with a one-unit separator. *)
Fixpoint split_on (sep : jschar) (s : jsstring) : list jsstring :=
  match s with
  | [] => [[]]
  | c :: s' =>
      if jschar_eqb c sep then [] :: split_on sep s'
      else match split_on sep s' with
           | [] => [[c]]
           | p :: ps => (c :: p) :: ps
           end
  end.

(** ECMAScript LineTerminator: LF, CR, LS, PS. *)
Definition is_line_terminator (c : jschar) : bool :=
  (c =? 10)%N || (c =? 13)%N || (c =? 8232)%N || (c =? 8233)%N.

(** ECMAScript WhiteSpace: TAB, VT, FF, SP, NBSP, ZWNBSP and category Zs. *)
Definition is_white_space (c : jschar) : bool :=
  (c =? 9)%N || (c =? 11)%N || (c =? 12)%N || (c =? 32)%N || (c =? 160)%N
  || (c =? 5760)%N || ((8192 <=? c)%N && (c <=? 8202)%N)
  || (c =? 8239)%N || (c =? 8287)%N || (c =? 12288)%N || (c =? 65279)%N.

Definition is_trimmable (c : jschar) : bool :=
  is_white_space c || is_line_terminator c.

Fixpoint trimStart (s : jsstring) : jsstring :=
  match s with
  | [] => []
  | c :: s' => if is_trimmable c then trimStart s' else s
  end.

(** [String.prototype.trim]. *)
Definition trim (s : jsstring) : jsstring :=
  rev (trimStart (rev (trimStart s))).

(** JavaScript truthiness of an optional string: [undefined] and the
    empty string are falsy. *)
Definition truthy (o : option jsstring) : bool :=
  match o with
  | Some (_ :: _) => true
  | _ => false
  end.

(** [o || ''] for an optional string. *)
Definition or_empty (o : option jsstring) : jsstring :=
  match o with
  | Some s => s
  | None => []
  end.

(** [String(v)] (template-literal interpolation) for a value that is a
    string or [undefined]. *)
Definition to_display (o : option jsstring) : jsstring :=
  match o with
  | Some s => s
  | None => lit "undefined"
  end.

(** ** Tokens *)

Module TOKENS.
Definition START : jsstring := Eval cbv in lit "<|start|>".
Definition END : jsstring := Eval cbv in lit "<|end|>".
Definition MESSAGE : jsstring := Eval cbv in lit "<|message|>".
Definition CHANNEL : jsstring := Eval cbv in lit "<|channel|>".
End TOKENS.

Definition NL : jsstring := [10%N].

(** ** Encoder (Prompt Modification Guide) *)

Record message := {
  role : jsstring;
  content : jsstring;
  channel : option jsstring
}.

Definition renderHarmonyMessage (role content : jsstring)
    (channel : option jsstring) : jsstring :=
  TOKENS.START ++ TOKENS.MESSAGE ++ role
    ++ (if truthy channel then TOKENS.CHANNEL ++ or_empty channel else [])
    ++ TOKENS.END ++ content.

Definition encodeHarmonyConversation (messages : list message) : jsstring :=
  join NL
    (map (fun m => renderHarmonyMessage m.(role) m.(content) m.(channel))
       messages).

(** ** Encoder (Implementation Improvement Guide) *)

Module HarmonyEncoder.

Definition renderMessage (role content : jsstring)
    (channel : option jsstring) : jsstring :=
  let result := [] in
  let result := result ++ TOKENS.START in
  let result := result ++ TOKENS.MESSAGE in
  let result := result ++ role in
  let result :=
    if truthy channel then (result ++ TOKENS.CHANNEL) ++ or_empty channel
    else result in
  let result := result ++ TOKENS.END in
  let result := result ++ content in
  result.

(** The callback of [messages.map] in [convertToHarmonyFormat]. *)
Definition convertMessage (msg : message) : jsstring :=
  if jsstring_eqb msg.(role) (lit "system") then
    renderMessage (lit "system") msg.(content) None
  else if jsstring_eqb msg.(role) (lit "user") then
    renderMessage (lit "user") msg.(content) None
  else if jsstring_eqb msg.(role) (lit "assistant") then
    renderMessage (lit "assistant") msg.(content) msg.(channel)
  else [].

Definition convertToHarmonyFormat (messages : list message) : jsstring :=
  join NL (map convertMessage messages).

End HarmonyEncoder.

(** ** Exceptions *)

Inductive exn := TypeError | SyntaxError.

Inductive outcome (A : Type) :=
| Ok (a : A)
| Throw (e : exn).

Arguments Ok {A} a.
Arguments Throw {A} e.

Definition bind {A B : Type} (x : outcome A) (f : A -> outcome B) : outcome B :=
  match x with
  | Ok a => f a
  | Throw e => Throw e
  end.

(** [Array.prototype.map] with a callback that may throw: the first
    exception, in index order, aborts the whole call. *)
Fixpoint map_throwing {A B : Type} (f : A -> outcome B) (l : list A)
    : outcome (list B) :=
  match l with
  | [] => Ok []
  | a :: l' =>
      bind (f a) (fun b => bind (map_throwing f l') (fun bs => Ok (b :: bs)))
  end.

(** ** Tool declarations

    The OpenAI tool format the renderers receive (as [any[]]).  Members
    the sources guard with [?.] or [||] are optional.  [properties] is
    the object's own enumerable entries in [Object.entries] order. *)

Record property := {
  type : option jsstring;
  p_description : option jsstring
}.

Record tool_parameters := {
  properties : option (list (jsstring * property))
}.

Record tool_function := {
  fn_name : jsstring;
  fn_description : option jsstring;
  parameters : option tool_parameters
}.

Record tool := {
  function : option tool_function
}.

(** [`  ${k}: ${v.type}; // ${v.description || ''}`] *)
Definition property_line (kv : jsstring * property) : jsstring :=
  let '(k, v) := kv in
  lit "  " ++ k ++ lit ": " ++ to_display v.(type) ++ lit "; // "
    ++ or_empty v.(p_description).

(** [t.function?.parameters?.properties || {}] *)
Definition properties_or_empty (f : option tool_function)
    : list (jsstring * property) :=
  match f with
  | Some fn =>
      match fn.(parameters) with
      | Some ps =>
          match ps.(properties) with
          | Some p => p
          | None => []
          end
      | None => []
      end
  | None => []
  end.

Definition namespace_block (t : tool) : outcome jsstring :=
  let p := properties_or_empty t.(function) in
  let properties := join NL (map property_line p) in
  match t.(function) with
  | None => Throw TypeError
  | Some fn =>
      Ok (lit "namespace " ++ fn.(fn_name) ++ lit " {" ++ NL
            ++ properties ++ NL ++ lit "}")
  end.

Definition toolsToTypeScriptNamespace (tools : list tool) : outcome jsstring :=
  bind (map_throwing namespace_block tools)
       (fun blocks => Ok (join (NL ++ NL) blocks)).

(** [convertToolsToTypeScript] of the Improvement Guide: [tool.function]
    and its [parameters] are dereferenced unguarded, and the block
    carries the tool description as a doc comment. *)
Definition documented_namespace_block (t : tool) : outcome jsstring :=
  match t.(function) with
  | None => Throw TypeError
  | Some fn =>
      match fn.(parameters) with
      | None => Throw TypeError
      | Some params =>
          let properties :=
            join NL (map property_line
                       (match params.(properties) with
                        | Some p => p
                        | None => []
                        end)) in
          Ok (lit "namespace " ++ fn.(fn_name) ++ lit " {" ++ NL
                ++ lit "  /**" ++ NL
                ++ lit "   * " ++ or_empty fn.(fn_description) ++ NL
                ++ lit "   */" ++ NL
                ++ properties ++ NL ++ lit "}")
      end
  end.

Definition convertToolsToTypeScript (tools : list tool) : outcome jsstring :=
  bind (map_throwing documented_namespace_block tools)
       (fun blocks => Ok (join (NL ++ NL) blocks)).

(** ** Regular expressions

    The fragment of ECMAScript patterns the parsers use: literal text,
    the lazily starred classes [[\s\S]*?] and [.*?], sequencing,
    alternation, capture groups, positive lookahead and [$] (no [m]
    flag).  [rmatch] is the backtracking matcher in continuation-passing
    style: alternatives are tried in priority order and the first one
    whose continuation succeeds wins. *)

Inductive cls := ClsAny | ClsDot.

Definition cls_accepts (c : cls) (ch : jschar) : bool :=
  match c with
  | ClsAny => true
  | ClsDot => negb (is_line_terminator ch)
  end.

Inductive regex :=
| Lit (w : jsstring)
| LazyStar (c : cls)
| Seq (r1 r2 : regex)
| Alt (r1 r2 : regex)
| Group (n : nat) (r : regex)
| Lookahead (r : regex)
| EndOfInput.

Definition captures := list (nat * jsstring).

Fixpoint capture (n : nat) (caps : captures) : option jsstring :=
  match caps with
  | [] => None
  | (i, s) :: caps' => if Nat.eqb i n then Some s else capture n caps'
  end.

(** The rest of [s] after the prefix [w], when [s] starts with [w]. *)
Fixpoint starts_with (w s : jsstring) : option jsstring :=
  match w with
  | [] => Some s
  | a :: w' =>
      match s with
      | [] => None
      | b :: s' => if jschar_eqb a b then starts_with w' s' else None
      end
  end.

Section Matcher.

Variable R : Type.

Fixpoint lazy_star (c : cls) (k : jsstring -> option R) (s : jsstring)
    : option R :=
  match k s with
  | Some r => Some r
  | None =>
      match s with
      | [] => None
      | ch :: s' => if cls_accepts c ch then lazy_star c k s' else None
      end
  end.

End Matcher.

Definition continuation := jsstring -> captures -> option (jsstring * captures).

Fixpoint rmatch (r : regex) (s : jsstring) (caps : captures)
    (k : continuation) : option (jsstring * captures) :=
  match r with
  | Lit w =>
      match starts_with w s with
      | Some s' => k s' caps
      | None => None
      end
  | LazyStar c => lazy_star c (fun s' => k s' caps) s
  | Seq r1 r2 => rmatch r1 s caps (fun s' caps' => rmatch r2 s' caps' k)
  | Alt r1 r2 =>
      match rmatch r1 s caps k with
      | Some x => Some x
      | None => rmatch r2 s caps k
      end
  | Group n r1 =>
      rmatch r1 s caps
        (fun s' caps' =>
           k s' ((n, firstn (List.length s - List.length s') s) :: caps'))
  | Lookahead r1 =>
      match rmatch r1 s caps (fun s' caps' => Some (s', caps')) with
      | Some (_, caps') => k s caps'
      | None => None
      end
  | EndOfInput =>
      match s with
      | [] => k s caps
      | _ :: _ => None
      end
  end.

Definition match_here (r : regex) (s : jsstring)
    : option (jsstring * captures) :=
  rmatch r s [] (fun s' caps => Some (s', caps)).

(** Leftmost match: the start positions are tried from left to right,
    the end of the input included.  The result is the text left after
    the match and the captures. *)
Fixpoint search (r : regex) (s : jsstring) : option (jsstring * captures) :=
  match match_here r s with
  | Some m => Some m
  | None =>
      match s with
      | [] => None
      | _ :: s' => search r s'
      end
  end.

(** [RegExp.prototype.exec] on a sticky-free pattern, resumed where the
    previous match ended ([lastIndex]): the patterns below have no
    assertion that looks behind, so searching the remaining text is the
    same as searching the whole text from [lastIndex]. *)
Definition exec (r : regex) (remaining : jsstring)
    : option (jsstring * captures) :=
  search r remaining.

Fixpoint seq_of (rs : list regex) : regex :=
  match rs with
  | [] => Lit []
  | [r] => r
  | r :: rs' => Seq r (seq_of rs')
  end.

(** ** Batch parsers *)

Definition CHANNEL_OPEN : jsstring := Eval cbv in lit "<|channel|>".
Definition CHANNEL_AHEAD : jsstring := Eval cbv in lit "<|channel|".
Definition END_TOKEN : jsstring := Eval cbv in lit "<|end|>".

Definition TOOL_CALL_OPEN : jsstring := Eval cbv in lit "<tool_call>".
Definition TOOL_CALL_CLOSE : jsstring := Eval cbv in lit "</tool_call>".
Definition TOOL_NAME_OPEN : jsstring := Eval cbv in lit "<tool_name>".
Definition TOOL_NAME_CLOSE : jsstring := Eval cbv in lit "</tool_name>".
Definition PARAMETERS_OPEN : jsstring := Eval cbv in lit "<parameters>".
Definition PARAMETERS_CLOSE : jsstring := Eval cbv in lit "</parameters>".

(** The three channel names the parsers look for. *)
Inductive channel_name := analysis_ch | commentary_ch | final_ch.

Definition ANALYSIS : jsstring := Eval cbv in lit "analysis".
Definition COMMENTARY : jsstring := Eval cbv in lit "commentary".
Definition FINAL : jsstring := Eval cbv in lit "final".

Definition channel_literal (ch : channel_name) : jsstring :=
  match ch with
  | analysis_ch => ANALYSIS
  | commentary_ch => COMMENTARY
  | final_ch => FINAL
  end.

(** [<\|channel\|>${ch}<\|end\|>([\s\S]*?)(?=<\|channel\||$)]; the
    channel names are plain letters, so splicing them into the pattern
    text yields literals. *)
Definition channel_re (ch : channel_name) : regex :=
  seq_of [ Lit CHANNEL_OPEN; Lit (channel_literal ch); Lit END_TOKEN;
           Group 1 (LazyStar ClsAny);
           Lookahead (Alt (Lit CHANNEL_AHEAD) EndOfInput) ].

(** [<tool_call>[\s\S]*?<tool_name>(.*?)<\/tool_name>[\s\S]*?<parameters>([\s\S]*?)<\/parameters>[\s\S]*?<\/tool_call>] *)
Definition tool_call_re : regex :=
  seq_of [ Lit TOOL_CALL_OPEN; LazyStar ClsAny;
           Lit TOOL_NAME_OPEN; Group 1 (LazyStar ClsDot); Lit TOOL_NAME_CLOSE;
           LazyStar ClsAny;
           Lit PARAMETERS_OPEN; Group 2 (LazyStar ClsAny); Lit PARAMETERS_CLOSE;
           LazyStar ClsAny; Lit TOOL_CALL_CLOSE ].

(** [(text.match(re) || [])[1]?.trim()] *)
Definition section (text : jsstring) (ch : channel_name) : option jsstring :=
  match search (channel_re ch) text with
  | Some (_, caps) => option_map trim (capture 1 caps)
  | None => None
  end.

Section Parsers.

(** The value type of decoded JSON and the runtime's [JSON.parse];
    [None] stands for the [SyntaxError] it throws. *)
Variable J : Type.
Variable JSON_parse : jsstring -> option J.

Record ToolCall := {
  tc_name : jsstring;
  tc_parameters : J
}.

Record Parsed := {
  analysis : option jsstring;
  commentary : option jsstring;
  final : option jsstring;
  toolCalls : option (list ToolCall)
}.

(** The body of the [while] loop of [parseHarmony]: whatever is thrown
    inside [try] is swallowed by the empty [catch]. *)
Definition push_guarded (toolCalls : list ToolCall) (m : captures)
    : list ToolCall :=
  match capture 1 m, capture 2 m with
  | Some m1, Some m2 =>
      match JSON_parse (trim m2) with
      | Some v => toolCalls ++ [{| tc_name := trim m1; tc_parameters := v |}]
      | None => toolCalls
      end
  | _, _ => toolCalls
  end.

(** [while ((m = re.exec(text)) !== null) { try { ... } catch {} }];
    [None] when the fuel runs out before [exec] returns [null]. *)
Fixpoint collect_guarded (fuel : nat) (remaining : jsstring)
    (toolCalls : list ToolCall) : option (list ToolCall) :=
  match fuel with
  | O => None
  | S fuel' =>
      match exec tool_call_re remaining with
      | None => Some toolCalls
      | Some (rest, m) =>
          collect_guarded fuel' rest (push_guarded toolCalls m)
      end
  end.

Definition parseHarmony (text : jsstring) : option Parsed :=
  let out_analysis := section text analysis_ch in
  let out_commentary := section text commentary_ch in
  let out_final := section text final_ch in
  match collect_guarded (S (List.length text)) text [] with
  | None => None
  | Some toolCalls =>
      Some {| analysis := out_analysis;
              commentary := out_commentary;
              final := out_final;
              toolCalls := match toolCalls with
                           | [] => None
                           | _ :: _ => Some toolCalls
                           end |}
  end.

(** The loop body of [parseHarmonyResponse]: no [try], so whatever
    [JSON.parse] throws leaves the function. *)
Definition push_unguarded (toolCalls : list ToolCall) (m : captures)
    : outcome (list ToolCall) :=
  match capture 1 m, capture 2 m with
  | Some m1, Some m2 =>
      match JSON_parse (trim m2) with
      | Some v =>
          Ok (toolCalls ++ [{| tc_name := trim m1; tc_parameters := v |}])
      | None => Throw SyntaxError
      end
  | _, _ => Throw TypeError
  end.

Fixpoint collect_unguarded (fuel : nat) (remaining : jsstring)
    (toolCalls : list ToolCall) : option (outcome (list ToolCall)) :=
  match fuel with
  | O => None
  | S fuel' =>
      match exec tool_call_re remaining with
      | None => Some (Ok toolCalls)
      | Some (rest, m) =>
          match push_unguarded toolCalls m with
          | Ok toolCalls' => collect_unguarded fuel' rest toolCalls'
          | Throw e => Some (Throw e)
          end
      end
  end.

Definition parseHarmonyResponse (response : jsstring)
    : option (outcome Parsed) :=
  let result_analysis := section response analysis_ch in
  let result_commentary := section response commentary_ch in
  let result_final := section response final_ch in
  match collect_unguarded (S (List.length response)) response [] with
  | None => None
  | Some (Throw e) => Some (Throw e)
  | Some (Ok toolCalls) =>
      Some (Ok {| analysis := result_analysis;
                  commentary := result_commentary;
                  final := result_final;
                  toolCalls := match toolCalls with
                               | [] => None
                               | _ :: _ => Some toolCalls
                               end |})
  end.

End Parsers.

Arguments analysis {J} _.
Arguments commentary {J} _.
Arguments final {J} _.
Arguments toolCalls {J} _.
Arguments tc_name {J} _.
Arguments tc_parameters {J} _.

(** ** Specification-level string search

    What the two patterns compute, stated with plain searches; the
    parsers are related to these below. *)

(** The text following the first occurrence of [w] in [s]. *)
Fixpoint after_first (w s : jsstring) : option jsstring :=
  match starts_with w s with
  | Some rest => Some rest
  | None =>
      match s with
      | [] => None
      | _ :: s' => after_first w s'
      end
  end.

(** The text preceding the first occurrence of [w] in [s]; all of [s]
    when [w] does not occur. *)
Fixpoint before (w s : jsstring) : jsstring :=
  match starts_with w s with
  | Some _ => []
  | None =>
      match s with
      | [] => []
      | c :: s' => c :: before w s'
      end
  end.

(** [s] from the first occurrence of [w] on; empty when there is none. *)
Fixpoint from_first (w s : jsstring) : jsstring :=
  match starts_with w s with
  | Some _ => s
  | None =>
      match s with
      | [] => []
      | _ :: s' => from_first w s'
      end
  end.

Definition occurs (w s : jsstring) : bool :=
  match after_first w s with
  | Some _ => true
  | None => false
  end.

(** In [g ++ w], the first occurrence of [w] is the final one. *)
Definition ends_first (w g : jsstring) : bool :=
  match after_first w (g ++ w) with
  | Some [] => true
  | _ => false
  end.

(** The first unit of [w] does not recur in [w]. *)
Definition fresh_head (w : jsstring) : bool :=
  match w with
  | [] => false
  | a :: w' => forallb (fun c => negb (jschar_eqb c a)) w'
  end.

Definition infix (x s : jsstring) : Prop :=
  exists pre post, s = pre ++ x ++ post.

Definition no_newline (s : jsstring) : bool :=
  forallb (fun c => negb (jschar_eqb c 10%N)) s.

Definition channel_marker (ch : channel_name) : jsstring :=
  CHANNEL_OPEN ++ channel_literal ch ++ END_TOKEN.

Definition channel_field {J : Type} (ch : channel_name) (p : Parsed J)
    : option jsstring :=
  match ch with
  | analysis_ch => analysis p
  | commentary_ch => commentary p
  | final_ch => final p
  end.

(** ** Responses made of tool-call blocks

    A block in the order the pattern reads it: text leading up to the
    opening tag, the gaps between the tags, the name and the payload. *)

Record block := {
  b_lead : jsstring;
  b_gap1 : jsstring;
  b_name : jsstring;
  b_gap2 : jsstring;
  b_payload : jsstring;
  b_gap3 : jsstring
}.

Definition block_text (b : block) : jsstring :=
  b.(b_lead) ++ TOOL_CALL_OPEN ++ b.(b_gap1)
    ++ TOOL_NAME_OPEN ++ b.(b_name) ++ TOOL_NAME_CLOSE ++ b.(b_gap2)
    ++ PARAMETERS_OPEN ++ b.(b_payload) ++ PARAMETERS_CLOSE ++ b.(b_gap3)
    ++ TOOL_CALL_CLOSE.

Fixpoint blocks_text (bs : list block) (tail : jsstring) : jsstring :=
  match bs with
  | [] => tail
  | b :: bs' => block_text b ++ blocks_text bs' tail
  end.

(** No tag occurs in the text that leads up to it, and the name stays on
    one line. *)
Definition block_ok (b : block) : bool :=
  negb (occurs TOOL_CALL_OPEN b.(b_lead))
  && negb (occurs TOOL_NAME_OPEN b.(b_gap1))
  && negb (occurs TOOL_NAME_CLOSE b.(b_name))
  && forallb (cls_accepts ClsDot) b.(b_name)
  && negb (occurs PARAMETERS_OPEN b.(b_gap2))
  && negb (occurs PARAMETERS_CLOSE b.(b_payload))
  && negb (occurs TOOL_CALL_CLOSE b.(b_gap3)).

Section Decoding.

Variable J : Type.
Variable JSON_parse : jsstring -> option J.

Definition block_call (b : block) : option (ToolCall J) :=
  match JSON_parse (trim b.(b_payload)) with
  | Some v => Some {| tc_name := trim b.(b_name); tc_parameters := v |}
  | None => None
  end.

(** The calls of the blocks whose payload decodes, in block order. *)
Fixpoint decoded_calls (bs : list block) : list (ToolCall J) :=
  match bs with
  | [] => []
  | b :: bs' =>
      match block_call b with
      | Some c => c :: decoded_calls bs'
      | None => decoded_calls bs'
      end
  end.

Definition malformed (b : block) : bool :=
  match JSON_parse (trim b.(b_payload)) with
  | Some _ => false
  | None => true
  end.

End Decoding.

Definition nonempty_or_absent {A : Type} (l : list A) : option (list A) :=
  match l with
  | [] => None
  | _ :: _ => Some l
  end.

(** A single assistant turn on one of the three channels. *)
Definition assistant_turn (ch : channel_name) (content : jsstring) : message :=
  {| role := lit "assistant";
     content := content;
     channel := Some (channel_literal ch) |}.

(** ** The tool-call pattern, stage by stage

    The continuations [rmatch] builds for [tool_call_re], named from
    the innermost out; [tool_match_stages] below shows that they are
    what the matcher runs. *)

(** A literal [w], then [K] on the text at the literal and after it. *)
Definition lit_then {R : Type} (w : jsstring)
    (K : jsstring -> jsstring -> option R) : jsstring -> option R :=
  fun s' =>
    match starts_with w s' with
    | Some s'' => K s' s''
    | None => None
    end.

(** [[\s\S]*?<\/tool_call>] *)
Definition close_stage (caps : captures) (s : jsstring)
    : option (jsstring * captures) :=
  lazy_star ClsAny
    (lit_then TOOL_CALL_CLOSE (fun _ s'' => Some (s'', caps))) s.

(** [([\s\S]*?)<\/parameters>] and the rest *)
Definition payload_stage (caps : captures) (s : jsstring)
    : option (jsstring * captures) :=
  lazy_star ClsAny
    (lit_then PARAMETERS_CLOSE
       (fun s' s'' =>
          close_stage
            ((2, firstn (List.length s - List.length s') s) :: caps) s''))
    s.

(** [[\s\S]*?<parameters>] and the rest *)
Definition params_stage (caps : captures) (s : jsstring)
    : option (jsstring * captures) :=
  lazy_star ClsAny
    (lit_then PARAMETERS_OPEN (fun _ s'' => payload_stage caps s'')) s.

(** [(.*?)<\/tool_name>] and the rest *)
Definition name_stage (caps : captures) (s : jsstring)
    : option (jsstring * captures) :=
  lazy_star ClsDot
    (lit_then TOOL_NAME_CLOSE
       (fun s' s'' =>
          params_stage
            ((1, firstn (List.length s - List.length s') s) :: caps) s''))
    s.

(** [[\s\S]*?<tool_name>] and the rest *)
Definition open_stage (s : jsstring) : option (jsstring * captures) :=
  lazy_star ClsAny
    (lit_then TOOL_NAME_OPEN (fun _ s'' => name_stage [] s'')) s.

(** ** Streaming parser

    The streaming parser of section 4.4 of the specification and its
    [ParserState] of section 3.  The source has the two batch parsers
    only; the state machine below takes the steps of section 4.4 in
    their order, on the one [buffer]:
    - step 1 appends the fragment to [buffer];
    - step 2 recognises the complete channel-open markers in [buffer],
      a marker being the channel-boundary token, one of the three
      channel names and the closing token: with no channel in progress
      a marker opens its channel and is discarded, and so is the text
      before it (step 4 retains such text only "until a recognizable
      token arrives"); with a channel in progress the next channel-open
      marker closes it, and the text before that marker moves, trimmed,
      to [completedChannels];
    - step 3 scans [buffer] for complete tool-call blocks with the
      pattern of the batch parser; each is decoded by the guarded loop
      body of the batch parser, its call appended, and the block, from
      its opening tag through its closing tag, removed from [buffer];
      the rest stays buffered, and [toolCallBuffer] holds the text
      that still awaits the end of a block, from the first opening tag
      left in [buffer];
    - a channel field is populated at most once (section 3): the first
      completed text of a channel is kept. *)

(** Modelled from the spec: the mapping [completedChannels] of
    section 3, channel to accumulated text; the streaming parser that
    owns it is missing from the source. *)
Record channel_texts := {
  analysis_text : option jsstring;
  commentary_text : option jsstring;
  final_text : option jsstring
}.

Definition no_texts : channel_texts :=
  {| analysis_text := None; commentary_text := None; final_text := None |}.

Definition text_of (cm : channel_texts) (ch : channel_name) : option jsstring :=
  match ch with
  | analysis_ch => cm.(analysis_text)
  | commentary_ch => cm.(commentary_text)
  | final_ch => cm.(final_text)
  end.

(** Modelled from the spec: the update of [completedChannels] by the
    missing streaming parser, [completedChannels[ch] := text] unless
    the channel has a text ("populated at most once", section 3). *)
Definition complete (cm : channel_texts) (ch : channel_name)
    (text : jsstring) : channel_texts :=
  match text_of cm ch with
  | Some _ => cm
  | None =>
      match ch with
      | analysis_ch =>
          {| analysis_text := Some text;
             commentary_text := cm.(commentary_text);
             final_text := cm.(final_text) |}
      | commentary_ch =>
          {| analysis_text := cm.(analysis_text);
             commentary_text := Some text;
             final_text := cm.(final_text) |}
      | final_ch =>
          {| analysis_text := cm.(analysis_text);
             commentary_text := cm.(commentary_text);
             final_text := Some text |}
      end
  end.

(** Modelled from the spec: the recognition of a channel-open marker
    by the missing streaming parser (section 4.4, step 2); a marker at
    the head of [s], the channel it names and the text after it. *)
Definition marker_here (s : jsstring) : option (channel_name * jsstring) :=
  match starts_with (channel_marker analysis_ch) s with
  | Some rest => Some (analysis_ch, rest)
  | None =>
      match starts_with (channel_marker commentary_ch) s with
      | Some rest => Some (commentary_ch, rest)
      | None =>
          match starts_with (channel_marker final_ch) s with
          | Some rest => Some (final_ch, rest)
          | None => None
          end
      end
  end.

(** Modelled from the spec: the search of the missing streaming
    parser for the first complete channel-open marker in its buffer. *)
Fixpoint first_marker (s : jsstring) : option (channel_name * jsstring) :=
  match marker_here s with
  | Some m => Some m
  | None =>
      match s with
      | [] => None
      | _ :: s' => first_marker s'
      end
  end.

(** Modelled from the spec: the text the missing streaming parser has
    before the first complete channel-open marker of its buffer; all of
    the buffer when it holds no marker. *)
Fixpoint until_marker (s : jsstring) : jsstring :=
  match marker_here s with
  | Some _ => []
  | None =>
      match s with
      | [] => []
      | c :: s' => c :: until_marker s'
      end
  end.

(** Modelled from the spec: the buffer of the missing streaming parser
    from its first complete channel-open marker on; empty when it holds
    no marker. *)
Fixpoint from_marker (s : jsstring) : jsstring :=
  match marker_here s with
  | Some _ => s
  | None =>
      match s with
      | [] => []
      | _ :: s' => from_marker s'
      end
  end.

(** Modelled from the spec: the channel part of the [ParserState] of
    the missing streaming parser, [buffer], [channelInProgress] and
    [completedChannels]. *)
Definition channel_state : Type :=
  jsstring * option channel_name * channel_texts.

(** Modelled from the spec: step 2 of section 4.4 of the missing
    streaming parser, one token.  With no channel in progress, a
    complete channel-open marker opens its channel and is discarded
    with the text before it; with a channel in progress, the next
    channel-open marker closes it: the text before the marker moves,
    trimmed, to [completedChannels], and the marker stays at the head
    of the buffer, to open its channel in the next step.  [None] when
    the buffer holds no complete marker yet. *)
Definition channel_step (st : channel_state) : option channel_state :=
  let '(buffer, channelInProgress, completedChannels) := st in
  match channelInProgress with
  | None =>
      match first_marker buffer with
      | Some (ch, rest) => Some (rest, Some ch, completedChannels)
      | None => None
      end
  | Some ch =>
      match first_marker buffer with
      | Some _ =>
          Some (from_marker buffer, None,
                complete completedChannels ch (trim (until_marker buffer)))
      | None => None
      end
  end.

(** Modelled from the spec: "repeatedly attempt to recognize complete
    boundary tokens" (section 4.4, step 2) of the missing streaming
    parser. *)
Fixpoint channel_steps (fuel : nat) (st : channel_state) : channel_state :=
  match fuel with
  | O => st
  | S fuel' =>
      match channel_step st with
      | Some st' => channel_steps fuel' st'
      | None => st
      end
  end.

(** Every step consumes text or closes the channel in progress. *)
Definition channel_measure (st : channel_state) : nat :=
  let '(buffer, channelInProgress, _) := st in
  2 * List.length buffer
  + match channelInProgress with Some _ => 1 | None => 0 end.

(** Modelled from the spec: step 2 of section 4.4 of the missing
    streaming parser, repeated until no token is left. *)
Definition run_channels (st : channel_state) : channel_state :=
  channel_steps (S (channel_measure st)) st.

(** Modelled from the spec: the flush of finalize in the missing
    streaming parser; the end of the stream closes the channel in
    progress "as if a close marker had just arrived". *)
Definition flush (st : channel_state) : channel_texts :=
  let '(buffer, channelInProgress, completedChannels) := st in
  match channelInProgress with
  | Some ch => complete completedChannels ch (trim buffer)
  | None => completedChannels
  end.

(** Modelled from the spec: the scan of the missing streaming parser
    for the leftmost complete tool-call block of its buffer (section
    4.4, step 3); the leftmost match of the pattern, with the text
    before the match, the text after it and the captures. *)
Fixpoint search_with_lead (r : regex) (s : jsstring)
    : option (jsstring * jsstring * captures) :=
  match match_here r s with
  | Some (rest, m) => Some ([], rest, m)
  | None =>
      match s with
      | [] => None
      | c :: s' =>
          match search_with_lead r s' with
          | Some (lead, rest, m) => Some (c :: lead, rest, m)
          | None => None
          end
      end
  end.

(** Modelled from the spec: the error of the missing streaming API
    (section 7). *)
Inductive stream_error := ParserAlreadyFinalized.

(** Modelled from the spec: what an operation of the missing
    streaming API returns, a value or the misuse error. *)
Inductive stream_result (A : Type) :=
| StreamOk (a : A)
| StreamError (e : stream_error).

Arguments StreamOk {A} a.
Arguments StreamError {A} e.

Section Streaming.

Variable J : Type.
Variable JSON_parse : jsstring -> option J.

(** Modelled from the spec: the [ParserState] of section 3, missing
    from the source, with a flag for "finalized exactly once". *)
Record ParserState := {
  buffer : jsstring;
  channelInProgress : option channel_name;
  completedChannels : channel_texts;
  toolCallBuffer : jsstring;
  completedToolCalls : list (ToolCall J);
  finalized : bool
}.

(** Modelled from the spec: the state "created once per logical
    response" (section 3) of the missing streaming parser. *)
Definition initial_state : ParserState :=
  {| buffer := [];
     channelInProgress := None;
     completedChannels := no_texts;
     toolCallBuffer := [];
     completedToolCalls := [];
     finalized := false |}.

(** Modelled from the spec: step 3 of section 4.4 of the missing
    streaming parser, one scan of the buffer from left to right as the
    loop of the batch parser does it; every complete block is decoded,
    its call appended to [completedToolCalls], and the block removed:
    the text before a block and the text after the last one are what
    is left of the buffer. *)
Fixpoint drain (fuel : nat) (buffer : jsstring)
    (completedToolCalls : list (ToolCall J))
    : jsstring * list (ToolCall J) :=
  match fuel with
  | O => (buffer, completedToolCalls)
  | S fuel' =>
      match search_with_lead tool_call_re buffer with
      | Some (lead, rest, m) =>
          let '(kept, calls) :=
            drain fuel' rest (push_guarded JSON_parse completedToolCalls m) in
          (lead ++ kept, calls)
      | None => (buffer, completedToolCalls)
      end
  end.

(** Modelled from the spec: "on each fragment" of section 4.4, the
    feed operation of the missing streaming parser: steps 1 and 2,
    then step 3 on the buffer step 2 has left. *)
Definition feed (st : ParserState) (fragment : jsstring)
    : stream_result ParserState :=
  if st.(finalized) then StreamError ParserAlreadyFinalized
  else
    let '(buffer', channelInProgress', completedChannels') :=
      run_channels (st.(buffer) ++ fragment, st.(channelInProgress),
                    st.(completedChannels)) in
    let '(buffer'', completedToolCalls') :=
      drain (S (List.length buffer')) buffer' st.(completedToolCalls) in
    StreamOk {| buffer := buffer'';
                channelInProgress := channelInProgress';
                completedChannels := completedChannels';
                toolCallBuffer := from_first TOOL_CALL_OPEN buffer'';
                completedToolCalls := completedToolCalls';
                finalized := false |}.

(** Modelled from the spec: finalize of section 4.4, missing from the
    source; the result is built "from completedChannels and
    completedToolCalls", the call list left unset when empty as the
    batch parser leaves it. *)
Definition finalize (st : ParserState)
    : stream_result (Parsed J * ParserState) :=
  if st.(finalized) then StreamError ParserAlreadyFinalized
  else
    let texts :=
      flush (st.(buffer), st.(channelInProgress), st.(completedChannels)) in
    StreamOk
      ({| analysis := texts.(analysis_text);
          commentary := texts.(commentary_text);
          final := texts.(final_text);
          toolCalls := nonempty_or_absent st.(completedToolCalls) |},
       {| buffer := st.(buffer);
          channelInProgress := st.(channelInProgress);
          completedChannels := st.(completedChannels);
          toolCallBuffer := st.(toolCallBuffer);
          completedToolCalls := st.(completedToolCalls);
          finalized := true |}).

(** Modelled from the spec: the caller of the missing streaming
    parser feeding the fragments in arrival order (section 5). *)
Fixpoint feed_all (st : ParserState) (fragments : list jsstring)
    : stream_result ParserState :=
  match fragments with
  | [] => StreamOk st
  | fragment :: fragments' =>
      match feed st fragment with
      | StreamOk st' => feed_all st' fragments'
      | StreamError e => StreamError e
      end
  end.

(** Modelled from the spec: the lifecycle of section 3 around the
    missing streaming parser; a fresh state, every fragment, then
    finalize. *)
Definition parse_stream (fragments : list jsstring)
    : stream_result (Parsed J) :=
  match feed_all initial_state fragments with
  | StreamOk st =>
      match finalize st with
      | StreamOk (result, _) => StreamOk result
      | StreamError e => StreamError e
      end
  | StreamError e => StreamError e
  end.


End Streaming.

Definition channel_name_eqb (a b : channel_name) : bool :=
  match a, b with
  | analysis_ch, analysis_ch => true
  | commentary_ch, commentary_ch => true
  | final_ch, final_ch => true
  | _, _ => false
  end.


(** The double quote, for writing JSON text. *)
Definition QUOTE : jsstring := [34%N].

(** ** Inputs the renderers cannot tell apart *)

Definition same_turn (a b : message) : Prop :=
  a.(role) = b.(role)
  /\ a.(content) = b.(content)
  /\ or_empty a.(channel) = or_empty b.(channel).

Definition same_entry (a b : jsstring * property) : Prop :=
  fst a = fst b
  /\ to_display (snd a).(type) = to_display (snd b).(type)
  /\ or_empty (snd a).(p_description) = or_empty (snd b).(p_description).

Definition same_tool (a b : tool) : Prop :=
  match a.(function), b.(function) with
  | None, None => True
  | Some fa, Some fb =>
      fa.(fn_name) = fb.(fn_name)
      /\ Forall2 same_entry (properties_or_empty (Some fa))
                            (properties_or_empty (Some fb))
  | _, _ => False
  end.

(** The three roles [convertToHarmonyFormat] renders. *)
Definition rendered_role (r : jsstring) : Prop :=
  r = lit "system" \/ r = lit "user" \/ r = lit "assistant".

(** An entry whose name, type and description hold no newline. *)
Definition entry_one_line (kv : jsstring * property) : bool :=
  no_newline (fst kv)
  && no_newline (to_display (snd kv).(type))
  && no_newline (or_empty (snd kv).(p_description)).

(** ** Example inputs *)

Definition wizard_turn : message :=
  {| role := lit "wizard"; content := lit "hi"; channel := None |}.

Definition untyped_property : property :=
  {| type := None; p_description := None |}.

Definition search_function (ps : list (jsstring * property)) : tool_function :=
  {| fn_name := lit "search";
     fn_description := Some (lit "Search the workspace");
     parameters := Some {| properties := Some ps |} |}.

Definition search_tool (ps : list (jsstring * property)) : tool :=
  {| function := Some (search_function ps) |}.

Definition bad_block : block :=
  {| b_lead := []; b_gap1 := []; b_name := lit "search"; b_gap2 := [];
     b_payload := lit "{not json"; b_gap3 := [] |}.

(** A block whose tool name stands on a line of its own. *)
Definition own_line_block : block :=
  {| b_lead := []; b_gap1 := NL; b_name := NL ++ lit "get_time" ++ NL;
     b_gap2 := NL;
     b_payload := lit "{" ++ QUOTE ++ lit "x" ++ QUOTE ++ lit ": 1}";
     b_gap3 := NL |}.

(** A block whose payload is a JSON object with the closing tag of the
    payload in a string. *)
Definition tag_payload_block : block :=
  {| b_lead := []; b_gap1 := []; b_name := lit "get_time"; b_gap2 := [];
     b_payload := lit "{" ++ QUOTE ++ lit "x" ++ QUOTE ++ lit ": "
                    ++ QUOTE ++ lit "</parameters>" ++ QUOTE ++ lit "}";
     b_gap3 := [] |}.

Definition time_block : block :=
  {| b_lead := NL; b_gap1 := NL; b_name := lit "get_time"; b_gap2 := NL;
     b_payload := lit "{" ++ QUOTE ++ lit "x" ++ QUOTE ++ lit ": 1}";
     b_gap3 := NL |}.

(** ** A reference JSON decoder

    The parsers are parametric in the runtime's [JSON.parse].  This
    decoder of the JSON grammar (ECMA-404) is the instance used on
    concrete responses.  Numbers are kept exactly, as
    [mantissa * 10 ^ exponent] without trailing zeros in the mantissa,
    rather than rounded to a double; object members are kept in textual
    order. *)

Module JSONRef.

#[warnings="-register-all"]
Inductive json :=
| JNull
| JBool (b : bool)
| JNumber (mantissa exponent : Z)
| JString (s : jsstring)
| JArray (items : list json)
| JObject (members : list (jsstring * json)).

Definition is_ws (c : jschar) : bool :=
  (c =? 32)%N || (c =? 9)%N || (c =? 10)%N || (c =? 13)%N.

Fixpoint skip_ws (s : jsstring) : jsstring :=
  match s with
  | c :: s' => if is_ws c then skip_ws s' else s
  | [] => []
  end.

Definition is_digit (c : jschar) : bool := (48 <=? c)%N && (c <=? 57)%N.

(** The longest run of digits at the head of [s], accumulated onto
    [acc], with the number of digits read. *)
Fixpoint digits (s : jsstring) (acc : Z) (count : nat)
    : Z * nat * jsstring :=
  match s with
  | c :: s' =>
      if is_digit c
      then digits s' (acc * 10 + Z.of_N (c - 48)) (S count)
      else (acc, count, s)
  | [] => (acc, count, s)
  end.

Fixpoint strip_zeros (fuel : nat) (m e : Z) : Z * Z :=
  match fuel with
  | O => (m, e)
  | S fuel' =>
      if (m =? 0)%Z then (0%Z, 0%Z)
      else if (m mod 10 =? 0)%Z then strip_zeros fuel' (m / 10)%Z (e + 1)%Z
      else (m, e)
  end.

Definition parse_number (s : jsstring) : option (json * jsstring) :=
  let '(negative, s1) :=
    match s with
    | c :: r => if (c =? 45)%N then (true, r) else (false, s)
    | [] => (false, s)
    end in
  match s1 with
  | [] => None
  | c :: r =>
      if negb (is_digit c) then None
      else
        let '(int_part, _, r1) :=
          if (c =? 48)%N then (0%Z, 1, r) else digits s1 0%Z 0 in
        let fraction :=
          match r1 with
          | d :: r' =>
              if (d =? 46)%N then
                let '(m, k, r2) := digits r' int_part 0 in
                match k with
                | O => None
                | S _ => Some (m, (- Z.of_nat k)%Z, r2)
                end
              else Some (int_part, 0%Z, r1)
          | [] => Some (int_part, 0%Z, r1)
          end in
        match fraction with
        | None => None
        | Some (m, e, r2) =>
            let exponent :=
              match r2 with
              | x :: r' =>
                  if (x =? 101)%N || (x =? 69)%N then
                    let '(minus, r3) :=
                      match r' with
                      | sg :: r'' =>
                          if (sg =? 45)%N then (true, r'')
                          else if (sg =? 43)%N then (false, r'')
                          else (false, r')
                      | [] => (false, r')
                      end in
                    let '(v, k, r4) := digits r3 0%Z 0 in
                    match k with
                    | O => None
                    | S _ => Some ((if minus then - v else v)%Z, r4)
                    end
                  else Some (0%Z, r2)
              | [] => Some (0%Z, r2)
              end in
            match exponent with
            | None => None
            | Some (x, r5) =>
                let signed := (if negative then - m else m)%Z in
                let '(m', e') :=
                  strip_zeros (S (Z.to_nat (Z.log2 (Z.abs signed))))
                    signed (e + x)%Z in
                Some (JNumber m' e', r5)
            end
        end
  end.

Definition hex_value (c : jschar) : option N :=
  if is_digit c then Some (c - 48)%N
  else if (97 <=? c)%N && (c <=? 102)%N then Some (c - 87)%N
  else if (65 <=? c)%N && (c <=? 70)%N then Some (c - 55)%N
  else None.

Definition simple_escape (c : jschar) : option jschar :=
  if (c =? 34)%N then Some 34%N
  else if (c =? 92)%N then Some 92%N
  else if (c =? 47)%N then Some 47%N
  else if (c =? 98)%N then Some 8%N
  else if (c =? 102)%N then Some 12%N
  else if (c =? 110)%N then Some 10%N
  else if (c =? 114)%N then Some 13%N
  else if (c =? 116)%N then Some 9%N
  else None.

(** The string whose opening quote has just been read; [acc] holds
    the units read so far, last first. *)
Fixpoint parse_string (s acc : jsstring) : option (jsstring * jsstring) :=
  match s with
  | [] => None
  | c :: r =>
      if (c =? 34)%N then Some (rev acc, r)
      else if (c =? 92)%N then
        match r with
        | [] => None
        | e :: r' =>
            match simple_escape e with
            | Some u => parse_string r' (u :: acc)
            | None =>
                if (e =? 117)%N then
                  match r' with
                  | h1 :: h2 :: h3 :: h4 :: r'' =>
                      match hex_value h1, hex_value h2,
                            hex_value h3, hex_value h4 with
                      | Some a, Some b, Some c', Some d =>
                          parse_string r''
                            ((a * 4096 + b * 256 + c' * 16 + d)%N :: acc)
                      | _, _, _, _ => None
                      end
                  | _ => None
                  end
                else None
            end
        end
      else if (c <? 32)%N then None
      else parse_string r (c :: acc)
  end.

Definition expect (w : jsstring) (v : json) (s : jsstring)
    : option (json * jsstring) :=
  match starts_with w s with
  | Some rest => Some (v, rest)
  | None => None
  end.

Fixpoint parse_value (fuel : nat) (s : jsstring)
    : option (json * jsstring) :=
  match fuel with
  | O => None
  | S fuel' =>
      match skip_ws s with
      | [] => None
      | c :: r =>
          if (c =? 110)%N then expect (lit "ull") JNull r
          else if (c =? 116)%N then expect (lit "rue") (JBool true) r
          else if (c =? 102)%N then expect (lit "alse") (JBool false) r
          else if (c =? 34)%N then
            match parse_string r [] with
            | Some (str, rest) => Some (JString str, rest)
            | None => None
            end
          else if (c =? 91)%N then
            match skip_ws r with
            | x :: r' =>
                if (x =? 93)%N then Some (JArray [], r')
                else parse_elements fuel' r []
            | [] => None
            end
          else if (c =? 123)%N then
            match skip_ws r with
            | x :: r' =>
                if (x =? 125)%N then Some (JObject [], r')
                else parse_members fuel' r []
            | [] => None
            end
          else parse_number (c :: r)
      end
  end
with parse_elements (fuel : nat) (s : jsstring) (acc : list json)
    : option (json * jsstring) :=
  match fuel with
  | O => None
  | S fuel' =>
      match parse_value fuel' s with
      | None => None
      | Some (v, r) =>
          match skip_ws r with
          | x :: r' =>
              if (x =? 44)%N then parse_elements fuel' r' (v :: acc)
              else if (x =? 93)%N then Some (JArray (rev (v :: acc)), r')
              else None
          | [] => None
          end
      end
  end
with parse_members (fuel : nat) (s : jsstring)
    (acc : list (jsstring * json)) : option (json * jsstring) :=
  match fuel with
  | O => None
  | S fuel' =>
      match skip_ws s with
      | q :: r =>
          if negb (q =? 34)%N then None
          else
            match parse_string r [] with
            | None => None
            | Some (key, r1) =>
                match skip_ws r1 with
                | colon :: r2 =>
                    if negb (colon =? 58)%N then None
                    else
                      match parse_value fuel' r2 with
                      | None => None
                      | Some (v, r3) =>
                          match skip_ws r3 with
                          | x :: r4 =>
                              if (x =? 44)%N
                              then parse_members fuel' r4 ((key, v) :: acc)
                              else if (x =? 125)%N
                              then Some (JObject (rev ((key, v) :: acc)), r4)
                              else None
                          | [] => None
                          end
                      end
                | [] => None
                end
            end
      | [] => None
      end
  end.

Definition parse (s : jsstring) : option json :=
  match parse_value (S (S (List.length s))) s with
  | Some (v, rest) =>
      match skip_ws rest with
      | [] => Some v
      | _ :: _ => None
      end
  | None => None
  end.

End JSONRef.

(** ** System messages *)

Definition DEFAULT_HARMONY_SYSTEM : jsstring :=
  Eval cbv in lit "You are a helpful AI assistant.
Use channels for structure:
- analysis: internal reasoning
- commentary: outline plan/notes
- final: user-facing answer
".

(** [buildHarmonySystemMessage(toolNamespace = '')] of the Prompt
    Modification Guide; an absent argument takes the default. *)
Definition buildHarmonySystemMessage (toolNamespace : option jsstring)
    : jsstring :=
  DEFAULT_HARMONY_SYSTEM ++ NL ++ lit "You can use the following tools:" ++ NL
    ++ or_empty toolNamespace.

(** The text [buildSystemMessage] puts before the tool definitions. *)
Definition SYSTEM_HEAD : jsstring :=
  Eval cbv in lit "You are a helpful AI assistant.

You can use multiple channels to organize your response:
- analysis: For internal reasoning and problem breakdown
- commentary: For explaining your thought process
- final: For the final answer to the user

You have access to the following tools:

".

(** The text it puts after them, up to the turn it shows. *)
Definition SYSTEM_USAGE : jsstring :=
  Eval cbv in lit "

To use a tool, respond with:
".

(** The payload of the tool call it shows. *)
Definition SHOWN_PAYLOAD : jsstring :=
  Eval cbv in
    (lit "{" ++ QUOTE ++ lit "param1" ++ QUOTE ++ lit ": "
       ++ QUOTE ++ lit "value1" ++ QUOTE ++ lit "}").

(** The content of the turn it shows: a line of text and a tool-call
    block. *)
Definition SHOWN_CONTENT : jsstring :=
  Eval cbv in
    (lit "I'll use the tool:
<tool_call>
<tool_name>tool_name_here</tool_name>
<parameters>
" ++ SHOWN_PAYLOAD ++ lit "
</parameters>
</tool_call>").

(** [buildSystemMessage] of the Implementation Improvement Guide. *)
Definition buildSystemMessage (tools : list tool) : outcome jsstring :=
  bind (convertToolsToTypeScript tools)
       (fun toolDefs =>
          Ok (SYSTEM_HEAD ++ toolDefs ++ SYSTEM_USAGE
                ++ lit "<|start|><|message|>assistant<|channel|>final<|end|>"
                ++ SHOWN_CONTENT)).

(** ** The rendering of the Python library

    [render_harmony_message] as the Improvement Guide quotes it;
    [parts] is the list it appends to, [List.concat] is ["".join]. *)

Definition TOKEN_START : jsstring := Eval cbv in lit "<|start|>".
Definition TOKEN_END : jsstring := Eval cbv in lit "<|end|>".
Definition TOKEN_MESSAGE : jsstring := Eval cbv in lit "<|message|>".
Definition TOKEN_CHANNEL : jsstring := Eval cbv in lit "<|channel|>".

Definition render_harmony_message (role content : jsstring)
    (channel : option jsstring) : jsstring :=
  let parts := [] in
  let parts := parts ++ [TOKEN_START] in
  let parts := parts ++ [TOKEN_MESSAGE] in
  let parts := parts ++ [role] in
  let parts :=
    if truthy channel
    then (parts ++ [TOKEN_CHANNEL]) ++ [or_empty channel]
    else parts in
  let parts := parts ++ [TOKEN_END] in
  let parts := parts ++ [content] in
  List.concat parts.

(** ** Server-sent events

    The two readers of the event stream.  A chunk is the text
    [TextDecoder.decode] returns for one [reader.read()]; the list of
    chunks ends where [read] reports [done].  A generator is modelled
    by what it yields when it is run to its end. *)

Definition DATA_PREFIX : jsstring := Eval cbv in lit "data: ".
Definition DONE_SENTINEL : jsstring := Eval cbv in lit "[DONE]".

Section EventStream.

Variable J : Type.
Variable JSON_parse : jsstring -> option J.

(** The [for ... of chunk.split('\n')] loop of [sseStream]: what the
    lines yield, and whether the generator returned at a sentinel. *)
Fixpoint sse_lines (lines : list jsstring) : list J * bool :=
  match lines with
  | [] => ([], false)
  | line :: rest =>
      match starts_with DATA_PREFIX line with
      | Some data =>
          if jsstring_eqb data DONE_SENTINEL then ([], true)
          else
            match JSON_parse data with
            | Some v => let '(ys, d) := sse_lines rest in (v :: ys, d)
            | None => sse_lines rest
            end
      | None => sse_lines rest
      end
  end.

Fixpoint sseStream (chunks : list jsstring) : list J :=
  match chunks with
  | [] => []
  | chunk :: chunks' =>
      let '(ys, returned) := sse_lines (split_on 10%N chunk) in
      if returned then ys else ys ++ sseStream chunks'
  end.

End EventStream.

(** Values as [JSON.parse] returns them ([JSONRef.json]) or
    [undefined] ([None]).  Own properties of an object: of two members
    with one key the later one counts. *)
Definition jsvalue := option JSONRef.json.

Fixpoint member (key : jsstring) (members : list (jsstring * JSONRef.json))
    : jsvalue :=
  match members with
  | [] => None
  | (k, v) :: rest =>
      match member key rest with
      | Some v' => Some v'
      | None => if jsstring_eqb k key then Some v else None
      end
  end.

(** [v.key], for a key no prototype defines. *)
Definition get_property (v : jsvalue) (key : jsstring) : outcome jsvalue :=
  match v with
  | None => Throw TypeError
  | Some JSONRef.JNull => Throw TypeError
  | Some (JSONRef.JObject ms) => Ok (member key ms)
  | Some _ => Ok None
  end.

(** [v[0]] *)
Definition get_first (v : jsvalue) : outcome jsvalue :=
  match v with
  | None => Throw TypeError
  | Some JSONRef.JNull => Throw TypeError
  | Some (JSONRef.JArray items) => Ok (hd_error items)
  | Some (JSONRef.JObject ms) => Ok (member (lit "0") ms)
  | Some (JSONRef.JString s) =>
      Ok (match s with
          | [] => None
          | c :: _ => Some (JSONRef.JString [c])
          end)
  | Some _ => Ok None
  end.

(** [v?.key], for a key no prototype defines. *)
Definition get_optional (v : jsvalue) (key : jsstring) : jsvalue :=
  match v with
  | Some (JSONRef.JObject ms) => member key ms
  | _ => None
  end.

Definition value_truthy (v : jsvalue) : bool :=
  match v with
  | None => false
  | Some JSONRef.JNull => false
  | Some (JSONRef.JBool b) => b
  | Some (JSONRef.JNumber m _) => negb (m =? 0)%Z
  | Some (JSONRef.JString s) => match s with [] => false | _ :: _ => true end
  | Some (JSONRef.JArray _) => true
  | Some (JSONRef.JObject _) => true
  end.

(** [parsed.choices[0]?.delta?.content || ''] *)
Definition delta_content (parsed : JSONRef.json) : outcome JSONRef.json :=
  bind (get_property (Some parsed) (lit "choices"))
    (fun choices =>
       bind (get_first choices)
         (fun first =>
            let content :=
              get_optional (get_optional first (lit "delta")) (lit "content") in
            Ok (match content with
                | Some v => if value_truthy content then v
                            else JSONRef.JString []
                | None => JSONRef.JString []
                end))).

(** What [streamResponse] does for one event: a value yielded, or an
    error handed to [console.error]. *)
Inductive stream_event :=
| Yielded (v : JSONRef.json)
| Logged (e : exn).

Section ResponseStream.

Variable JSON_parse : jsstring -> option JSONRef.json.

(** The body of [try] in [streamResponse], with its [catch]. *)
Definition event_of (data : jsstring) : stream_event :=
  match JSON_parse data with
  | None => Logged SyntaxError
  | Some parsed =>
      match delta_content parsed with
      | Ok v => Yielded v
      | Throw e => Logged e
      end
  end.

Fixpoint response_lines (lines : list jsstring) : list stream_event * bool :=
  match lines with
  | [] => ([], false)
  | line :: rest =>
      match starts_with DATA_PREFIX line with
      | Some data =>
          if jsstring_eqb data DONE_SENTINEL then ([], true)
          else let '(es, d) := response_lines rest in (event_of data :: es, d)
      | None => response_lines rest
      end
  end.

Fixpoint streamResponse (chunks : list jsstring) : list stream_event :=
  match chunks with
  | [] => []
  | chunk :: chunks' =>
      let '(es, returned) := response_lines (split_on 10%N chunk) in
      if returned then es else es ++ streamResponse chunks'
  end.

End ResponseStream.

(** The values among the events. *)
Fixpoint yields (events : list stream_event) : list JSONRef.json :=
  match events with
  | [] => []
  | Yielded v :: rest => v :: yields rest
  | Logged _ :: rest => yields rest
  end.

(** The contents of the parsed values whose content can be read. *)
Fixpoint contents (parsed : list JSONRef.json) : list JSONRef.json :=
  match parsed with
  | [] => []
  | v :: rest =>
      match delta_content v with
      | Ok c => c :: contents rest
      | Throw _ => contents rest
      end
  end.

(** ** Responses made of channel segments *)

Fixpoint segments_text (segs : list (channel_name * jsstring)) : jsstring :=
  match segs with
  | [] => []
  | (ch, body) :: rest => channel_marker ch ++ body ++ segments_text rest
  end.

(** The body of the first segment of channel [ch]. *)
Fixpoint first_body (ch : channel_name) (segs : list (channel_name * jsstring))
    : option jsstring :=
  match segs with
  | [] => None
  | (x, body) :: rest =>
      if channel_name_eqb ch x then Some body else first_body ch rest
  end.

(** The header of an assistant turn up to its channel token. *)
Definition ASSISTANT_HEAD : jsstring :=
  Eval cbv in lit "<|start|><|message|>assistant".

(** What the parser is given as segments when assistant turns are
    encoded one after the other: every content but the last is followed
    by the newline that joins the turns and the header of the next
    turn. *)
Fixpoint carried (turns : list (channel_name * jsstring))
    : list (channel_name * jsstring) :=
  match turns with
  | [] => []
  | [(ch, c)] => [(ch, c)]
  | (ch, c) :: rest => (ch, c ++ NL ++ ASSISTANT_HEAD) :: carried rest
  end.

Definition bodies_ok (segs : list (channel_name * jsstring)) : bool :=
  forallb (fun seg => negb (occurs CHANNEL_AHEAD (snd seg))) segs.

(** ** Turns both encoders render alike *)

Definition has_function (t : tool) : bool :=
  match t.(function) with
  | Some _ => true
  | None => false
  end.

Definition has_parameters (t : tool) : bool :=
  match t.(function) with
  | Some fn => match fn.(parameters) with Some _ => true | None => false end
  | None => false
  end.

(** An assistant turn, or a system or user turn without channel. *)
Definition plain_turn (m : message) : bool :=
  jsstring_eqb m.(role) (lit "assistant")
  || ((jsstring_eqb m.(role) (lit "system")
       || jsstring_eqb m.(role) (lit "user"))
      && negb (truthy m.(channel))).

(** ** Catalogs without angle brackets

    Every token and every tag the parsers look for starts with [<].  A
    declaration is free of it when its name, its description, and the
    keys, types and descriptions of its properties are (an absent type
    is displayed as [undefined]). *)

Definition angle_free (s : jsstring) : bool :=
  forallb (fun c => negb (c =? 60)%N) s.

Definition property_angle_free (kv : jsstring * property) : bool :=
  angle_free (fst kv)
  && angle_free (to_display (snd kv).(type))
  && angle_free (or_empty (snd kv).(p_description)).

Definition tool_angle_free (t : tool) : bool :=
  match t.(function) with
  | Some fn =>
      angle_free fn.(fn_name)
      && angle_free (or_empty fn.(fn_description))
      && forallb property_angle_free (properties_or_empty t.(function))
  | None => true
  end.

(** The result of parsing a text that holds nothing for the parser. *)
Definition nothing_parsed (J : Type) : Parsed J :=
  {| analysis := None; commentary := None; final := None; toolCalls := None |}.

(** A declaration with one typed and described parameter. *)
Definition query_tool : tool :=
  search_tool
    [(lit "query",
      {| type := Some (lit "string");
         p_description := Some (lit "The query") |})].

(** The tool-call block [buildSystemMessage] shows, behind the lead
    [lead]. *)
Definition shown_block (lead : jsstring) : block :=
  {| b_lead := lead;
     b_gap1 := NL;
     b_name := lit "tool_name_here";
     b_gap2 := NL;
     b_payload := NL ++ SHOWN_PAYLOAD ++ NL;
     b_gap3 := NL |}.

(** * Properties *)

(** ** Strings *)

Lemma jschar_eqb_refl (c : jschar) : jschar_eqb c c = true.
Proof. apply N.eqb_refl. Qed.

Lemma jschar_eqb_eq (a b : jschar) : jschar_eqb a b = true <-> a = b.
Proof. apply N.eqb_eq. Qed.

Lemma jsstring_eqb_eq (a b : jsstring) : jsstring_eqb a b = true <-> a = b.
Proof.
  revert b; induction a as [|x a IH]; intros [|y b]; simpl; split;
    try congruence; try reflexivity.
  - intros H. apply andb_true_iff in H as [Hx Ha].
    apply jschar_eqb_eq in Hx. apply IH in Ha. congruence.
  - intros H. injection H as -> ->.
    rewrite jschar_eqb_refl. simpl. apply IH. reflexivity.
Qed.

Lemma starts_with_app (w s : jsstring) : starts_with w (w ++ s) = Some s.
Proof.
  induction w as [|a w IH]; simpl; [reflexivity|].
  rewrite jschar_eqb_refl. exact IH.
Qed.

Lemma starts_with_inv (w s rest : jsstring) :
  starts_with w s = Some rest -> s = w ++ rest.
Proof.
  revert s; induction w as [|a w IH]; intros s H; simpl in *.
  - congruence.
  - destruct s as [|b s]; [discriminate|].
    destruct (jschar_eqb a b) eqn:E; [|discriminate].
    apply jschar_eqb_eq in E. subst b. f_equal. apply IH. exact H.
Qed.

Lemma starts_with_cat (a b s : jsstring) :
  starts_with (a ++ b) s =
  match starts_with a s with
  | Some s1 => starts_with b s1
  | None => None
  end.
Proof.
  revert s; induction a as [|x a IH]; intros s; simpl; [reflexivity|].
  destruct s as [|y s]; [reflexivity|].
  destruct (jschar_eqb x y); [apply IH | reflexivity].
Qed.

(** A failed prefix test is decided by the first [length w] units. *)
Lemma starts_with_none_app (w x y : jsstring) :
  starts_with w x = None -> List.length w <= List.length x ->
  starts_with w (x ++ y) = None.
Proof.
  revert x; induction w as [|a w IH]; intros x H L; simpl in *.
  - discriminate.
  - destruct x as [|b x]; simpl in *; [lia|].
    destruct (jschar_eqb a b); [|reflexivity].
    apply IH; [exact H | lia].
Qed.

Lemma after_first_eq (w s : jsstring) :
  after_first w s =
  match starts_with w s with
  | Some rest => Some rest
  | None => match s with [] => None | _ :: s' => after_first w s' end
  end.
Proof. destruct s; reflexivity. Qed.

Lemma before_eq (w s : jsstring) :
  before w s =
  match starts_with w s with
  | Some _ => []
  | None => match s with [] => [] | c :: s' => c :: before w s' end
  end.
Proof. destruct s; reflexivity. Qed.

Lemma from_first_eq (w s : jsstring) :
  from_first w s =
  match starts_with w s with
  | Some _ => s
  | None => match s with [] => [] | _ :: s' => from_first w s' end
  end.
Proof. destruct s; reflexivity. Qed.

Lemma before_from_first (w s : jsstring) : before w s ++ from_first w s = s.
Proof.
  induction s as [|c s IH]; rewrite before_eq, from_first_eq.
  - destruct (starts_with w []); reflexivity.
  - destruct (starts_with w (c :: s)); simpl; [reflexivity|].
    f_equal. exact IH.
Qed.

Lemma before_absent (w s : jsstring) : after_first w s = None -> before w s = s.
Proof.
  induction s as [|c s IH]; rewrite after_first_eq, before_eq.
  - destruct (starts_with w []); [discriminate | reflexivity].
  - destruct (starts_with w (c :: s)); [discriminate|].
    intros H. f_equal. apply IH. exact H.
Qed.

(** An occurrence of a longer word is an occurrence of its prefix. *)
Lemma after_first_prefix_absent (w x s : jsstring) :
  after_first w s = None -> after_first (w ++ x) s = None.
Proof.
  induction s as [|c s IH];
    rewrite (after_first_eq w), (after_first_eq (w ++ x)), starts_with_cat.
  - destruct (starts_with w []); [discriminate | reflexivity].
  - destruct (starts_with w (c :: s)); [discriminate | exact IH].
Qed.

Lemma ends_first_cons (w : jsstring) (c : jschar) (g : jsstring) :
  ends_first w (c :: g) = true ->
  starts_with w (c :: g ++ w) = None /\ ends_first w g = true.
Proof.
  unfold ends_first. rewrite (after_first_eq w ((c :: g) ++ w)).
  simpl app.
  destruct (starts_with w (c :: g ++ w)) as [r|] eqn:E.
  - destruct r as [|x r]; [|discriminate].
    apply starts_with_inv in E. apply (f_equal (@List.length _)) in E.
    simpl in E. rewrite !length_app in E. simpl in E. lia.
  - intros H. split; [reflexivity | exact H].
Qed.

Lemma ends_first_step (w : jsstring) (c : jschar) (g rest : jsstring) :
  ends_first w (c :: g) = true ->
  starts_with w (c :: g ++ w ++ rest) = None /\ ends_first w g = true.
Proof.
  intros H. apply ends_first_cons in H as [H1 H2]. split; [|exact H2].
  change (c :: g ++ w ++ rest) with ((c :: g) ++ w ++ rest).
  rewrite app_assoc. apply starts_with_none_app; [exact H1|].
  simpl. rewrite length_app. lia.
Qed.

Lemma starts_with_fresh (a : jschar) (w x y : jsstring) :
  forallb (fun c => negb (jschar_eqb c a)) w = true ->
  starts_with w x = None -> starts_with w (x ++ a :: y) = None.
Proof.
  revert x; induction w as [|b w IH]; intros x Hf H; simpl in *.
  - discriminate.
  - apply andb_true_iff in Hf as [Hb Hw].
    destruct x as [|c x]; simpl.
    + destruct (jschar_eqb b a); [discriminate | reflexivity].
    + destruct (jschar_eqb b c); [|reflexivity]. apply IH; assumption.
Qed.

(** A word whose first unit does not recur cannot straddle the end of a
    text it does not occur in. *)
Lemma absent_ends_first (w g : jsstring) :
  fresh_head w = true -> occurs w g = false -> ends_first w g = true.
Proof.
  destruct w as [|a w]; [discriminate|]. simpl fresh_head. intros Hf.
  unfold occurs, ends_first.
  induction g as [|c g IH]; rewrite after_first_eq.
  - intros _. rewrite app_nil_l, after_first_eq.
    pose proof (starts_with_app (a :: w) []) as Hs.
    rewrite app_nil_r in Hs. rewrite Hs. reflexivity.
  - destruct (starts_with (a :: w) (c :: g)) eqn:E; [discriminate|].
    intros H. rewrite <- app_comm_cons, after_first_eq.
    replace (starts_with (a :: w) (c :: g ++ a :: w)) with (@None jsstring).
    + apply IH. exact H.
    + symmetry. simpl in E |- *.
      destruct (jschar_eqb a c); [|reflexivity].
      apply starts_with_fresh; assumption.
Qed.

Lemma after_first_ends (w g rest : jsstring) :
  ends_first w g = true -> after_first w (g ++ w ++ rest) = Some rest.
Proof.
  induction g as [|c g IH]; intros H; rewrite after_first_eq.
  - simpl app. rewrite starts_with_app. reflexivity.
  - apply (ends_first_step _ _ _ rest) in H as [H1 H2].
    simpl app. rewrite H1. apply IH. exact H2.
Qed.

Lemma before_ends (w g rest : jsstring) :
  ends_first w g = true -> before w (g ++ w ++ rest) = g.
Proof.
  induction g as [|c g IH]; intros H; rewrite before_eq.
  - simpl app. rewrite starts_with_app. reflexivity.
  - apply (ends_first_step _ _ _ rest) in H as [H1 H2].
    simpl app. rewrite H1. f_equal. apply IH. exact H2.
Qed.

(** ** The matcher *)

Lemma lazy_star_eq (R : Type) (c : cls) (k : jsstring -> option R)
    (s : jsstring) :
  lazy_star c k s =
  match k s with
  | Some r => Some r
  | None =>
      match s with
      | [] => None
      | ch :: s' => if cls_accepts c ch then lazy_star c k s' else None
      end
  end.
Proof. destruct s; reflexivity. Qed.

Lemma search_eq (r : regex) (s : jsstring) :
  search r s =
  match match_here r s with
  | Some m => Some m
  | None => match s with [] => None | _ :: s' => search r s' end
  end.
Proof. destruct s; reflexivity. Qed.

(** A lazy star followed by the literal [w] stops at the first
    occurrence of [w] when what follows the literal succeeds there. *)
Lemma lazy_star_lit (R : Type) (c : cls) (w : jsstring)
    (K : jsstring -> jsstring -> option R) (g rest : jsstring) (r : R) :
  ends_first w g = true ->
  forallb (cls_accepts c) g = true ->
  K (w ++ rest) rest = Some r ->
  lazy_star c
    (fun s' => match starts_with w s' with
               | Some s'' => K s' s''
               | None => None
               end)
    (g ++ w ++ rest) = Some r.
Proof.
  intros He Hc HK. induction g as [|x g IH]; rewrite lazy_star_eq.
  - simpl app. rewrite starts_with_app, HK. reflexivity.
  - apply (ends_first_step _ _ _ rest) in He as [H1 H2].
    simpl in Hc. apply andb_true_iff in Hc as [Hx Hg].
    simpl app. rewrite H1, Hx. apply IH; assumption.
Qed.

(** The matcher hands its continuation a suffix of its input. *)
Lemma lazy_star_suffix (R : Type) (c : cls) (k : jsstring -> option R)
    (s : jsstring) (r : R) :
  lazy_star c k s = Some r ->
  exists s', List.length s' <= List.length s /\ k s' = Some r.
Proof.
  induction s as [|x s IH]; rewrite lazy_star_eq.
  - destruct (k []) eqn:E; [|discriminate].
    intros H. exists []. split; [lia | congruence].
  - destruct (k (x :: s)) eqn:E.
    + intros H. exists (x :: s). split; [lia | congruence].
    + destruct (cls_accepts c x); [|discriminate].
      intros H. destruct (IH H) as (s' & L & Hk).
      exists s'. split; [simpl; lia | exact Hk].
Qed.

Lemma rmatch_suffix (r : regex) :
  forall (s : jsstring) (caps : captures) (k : continuation) x,
    rmatch r s caps k = Some x ->
    exists s' caps', List.length s' <= List.length s /\ k s' caps' = Some x.
Proof.
  induction r as [w | c | r1 IH1 r2 IH2 | r1 IH1 r2 IH2 | n r1 IH1 | r1 IH1 | ];
    intros s caps k x H; simpl in H.
  - destruct (starts_with w s) as [s'|] eqn:E; [|discriminate].
    apply starts_with_inv in E. exists s', caps. split; [|exact H].
    subst s. rewrite length_app. lia.
  - apply lazy_star_suffix in H as (s' & L & Hk). eauto.
  - apply IH1 in H as (s1 & c1 & L1 & H).
    apply IH2 in H as (s2 & c2 & L2 & H).
    exists s2, c2. split; [lia | exact H].
  - destruct (rmatch r1 s caps k) eqn:E.
    + injection H as ->. eapply IH1; eassumption.
    + eapply IH2; eassumption.
  - apply IH1 in H as (s1 & c1 & L1 & H). eauto.
  - destruct (rmatch r1 s caps (fun s' caps' => Some (s', caps')))
      as [[s1 c1]|]; [|discriminate].
    exists s, c1. split; [lia | exact H].
  - destruct s; [|discriminate]. exists [], caps. split; [lia | exact H].
Qed.

(** ** Channel extraction *)

(** From a position where the marker has just been read, the capture is
    the text before the next channel boundary or the end. *)
Lemma channel_tail (p s : jsstring) :
  lazy_star ClsAny
    (fun s' =>
       rmatch (Lookahead (Alt (Lit CHANNEL_AHEAD) EndOfInput)) s'
         [(1, firstn (List.length (p ++ s) - List.length s') (p ++ s))]
         (fun s'' caps => Some (s'', caps)))
    s
  = Some (from_first CHANNEL_AHEAD s, [(1, p ++ before CHANNEL_AHEAD s)]).
Proof.
  revert p; induction s as [|c s IH]; intros p;
    rewrite lazy_star_eq, from_first_eq, before_eq.
  - cbn [rmatch]. simpl starts_with. cbn iota.
    rewrite Nat.sub_0_r, firstn_all. reflexivity.
  - cbn [rmatch].
    destruct (starts_with CHANNEL_AHEAD (c :: s)) as [r|] eqn:E.
    + replace (List.length (p ++ c :: s) - List.length (c :: s))
        with (List.length p + 0) by (rewrite length_app; lia).
      rewrite firstn_app_2. simpl firstn. rewrite !app_nil_r. reflexivity.
    + cbn [cls_accepts].
      specialize (IH (p ++ [c])). rewrite <- !app_assoc in IH.
      simpl app in IH. exact IH.
Qed.

Lemma channel_match_here (ch : channel_name) (s : jsstring) :
  match_here (channel_re ch) s =
  match starts_with (channel_marker ch) s with
  | Some s3 =>
      Some (from_first CHANNEL_AHEAD s3, [(1, before CHANNEL_AHEAD s3)])
  | None => None
  end.
Proof.
  unfold match_here, channel_re, channel_marker.
  cbn [seq_of rmatch]. rewrite starts_with_cat.
  destruct (starts_with CHANNEL_OPEN s) as [s1|]; [|reflexivity].
  rewrite starts_with_cat.
  destruct (starts_with (channel_literal ch) s1) as [s2|]; [|reflexivity].
  destruct (starts_with END_TOKEN s2) as [s3|]; [|reflexivity].
  exact (channel_tail [] s3).
Qed.

Lemma channel_search (ch : channel_name) (text : jsstring) :
  search (channel_re ch) text =
  match after_first (channel_marker ch) text with
  | Some s3 =>
      Some (from_first CHANNEL_AHEAD s3, [(1, before CHANNEL_AHEAD s3)])
  | None => None
  end.
Proof.
  induction text as [|c text IH];
    rewrite search_eq, after_first_eq, channel_match_here.
  - destruct (starts_with (channel_marker ch) []); reflexivity.
  - destruct (starts_with (channel_marker ch) (c :: text));
      [reflexivity | exact IH].
Qed.

(** What [section] computes: the trimmed text between the first marker
    of the channel and the next channel boundary. *)
Lemma section_spec (text : jsstring) (ch : channel_name) :
  section text ch =
  option_map (fun s3 => trim (before CHANNEL_AHEAD s3))
    (after_first (channel_marker ch) text).
Proof.
  unfold section. rewrite channel_search.
  destruct (after_first (channel_marker ch) text); reflexivity.
Qed.

(** ** Tool-call extraction *)

Lemma firstn_consumed (g w : jsstring) :
  firstn (List.length (g ++ w) - List.length w) (g ++ w) = g.
Proof.
  replace (List.length (g ++ w) - List.length w) with (List.length g + 0)
    by (rewrite length_app; lia).
  rewrite firstn_app_2. simpl. apply app_nil_r.
Qed.

(** At the opening tag of a block the pattern matches the block and
    captures its name and payload. *)
Lemma tool_match_block (g1 name g2 payload g3 rest : jsstring) :
  ends_first TOOL_NAME_OPEN g1 = true ->
  ends_first TOOL_NAME_CLOSE name = true ->
  forallb (cls_accepts ClsDot) name = true ->
  ends_first PARAMETERS_OPEN g2 = true ->
  ends_first PARAMETERS_CLOSE payload = true ->
  ends_first TOOL_CALL_CLOSE g3 = true ->
  match_here tool_call_re
    (TOOL_CALL_OPEN ++ g1 ++ TOOL_NAME_OPEN ++ name ++ TOOL_NAME_CLOSE ++ g2
       ++ PARAMETERS_OPEN ++ payload ++ PARAMETERS_CLOSE ++ g3
       ++ TOOL_CALL_CLOSE ++ rest)
  = Some (rest, [(2, payload); (1, name)]).
Proof.
  intros H1 Hn Hd H2 Hp H3.
  assert (Hany : forall g, forallb (cls_accepts ClsAny) g = true)
    by (intros g; apply forallb_forall; reflexivity).
  unfold match_here, tool_call_re. cbn [seq_of rmatch].
  rewrite starts_with_app.
  apply lazy_star_lit; [exact H1 | apply Hany |].
  apply lazy_star_lit; [exact Hn | exact Hd |].
  apply lazy_star_lit; [exact H2 | apply Hany |].
  apply lazy_star_lit; [exact Hp | apply Hany |].
  apply lazy_star_lit; [exact H3 | apply Hany |].
  rewrite !firstn_consumed. reflexivity.
Qed.

Lemma tool_match_needs_open (s : jsstring) :
  starts_with TOOL_CALL_OPEN s = None -> match_here tool_call_re s = None.
Proof.
  intros H. unfold match_here, tool_call_re. cbn [seq_of rmatch].
  rewrite H. reflexivity.
Qed.

(** The leftmost match skips text in which the opening tag cannot
    start. *)
Lemma tool_search_lead (lead s : jsstring) (m : jsstring * captures) :
  ends_first TOOL_CALL_OPEN lead = true ->
  match_here tool_call_re (TOOL_CALL_OPEN ++ s) = Some m ->
  search tool_call_re (lead ++ TOOL_CALL_OPEN ++ s) = Some m.
Proof.
  intros He Hm. induction lead as [|c lead IH]; rewrite search_eq.
  - rewrite app_nil_l, Hm. reflexivity.
  - apply (ends_first_step _ _ _ s) in He as [H1 H2].
    rewrite <- app_comm_cons, (tool_match_needs_open _ H1). apply IH. exact H2.
Qed.

Lemma tool_search_block (b : block) (rest : jsstring) :
  block_ok b = true ->
  search tool_call_re (block_text b ++ rest)
  = Some (rest, [(2, b.(b_payload)); (1, b.(b_name))]).
Proof.
  unfold block_ok. rewrite !andb_true_iff, !negb_true_iff.
  intros [[[[[[H0 H1] Hn] Hd] H2] Hp] H3].
  unfold block_text. repeat rewrite <- app_assoc.
  apply tool_search_lead; [apply absent_ends_first; [reflexivity | exact H0]|].
  apply tool_match_block; try apply absent_ends_first;
    solve [reflexivity | assumption].
Qed.

Lemma tool_search_absent (tail : jsstring) :
  occurs TOOL_CALL_OPEN tail = false -> search tool_call_re tail = None.
Proof.
  unfold occurs. induction tail as [|c tail IH]; rewrite after_first_eq, search_eq.
  - intros _. reflexivity.
  - destruct (starts_with TOOL_CALL_OPEN (c :: tail)) eqn:E; [discriminate|].
    rewrite (tool_match_needs_open _ E). exact IH.
Qed.

(** Every match of the tool-call pattern consumes text, so the [while]
    loop makes progress. *)
Lemma tool_match_shrinks (s rest : jsstring) (m : captures) :
  match_here tool_call_re s = Some (rest, m) ->
  List.length rest < List.length s.
Proof.
  unfold match_here, tool_call_re. cbn [seq_of].
  set (r := Seq (LazyStar ClsAny) _). cbn [rmatch]. fold rmatch.
  destruct (starts_with TOOL_CALL_OPEN s) as [s1|] eqn:E; [|discriminate].
  apply starts_with_inv in E. intros H.
  apply rmatch_suffix in H as (s' & c' & L & H).
  injection H as -> _. subst s. rewrite length_app. simpl. lia.
Qed.

Lemma tool_search_shrinks (s rest : jsstring) (m : captures) :
  search tool_call_re s = Some (rest, m) ->
  List.length rest < List.length s.
Proof.
  induction s as [|c s IH]; rewrite search_eq.
  - destruct (match_here tool_call_re []) as [[r0 m0]|] eqn:E; [|discriminate].
    apply tool_match_shrinks in E. simpl in E. lia.
  - destruct (match_here tool_call_re (c :: s)) as [[r0 m0]|] eqn:E.
    + intros H. injection H as -> ->. apply tool_match_shrinks in E. exact E.
    + intros H. apply IH in H. simpl. lia.
Qed.

Section ParserProperties.

Variable J : Type.
Variable JSON_parse : jsstring -> option J.

(** The loop of [parseHarmony] ends within the fuel it is given. *)
Lemma collect_guarded_total (fuel : nat) :
  forall (remaining : jsstring) (acc : list (ToolCall J)),
    List.length remaining < fuel ->
    exists calls, collect_guarded JSON_parse fuel remaining acc = Some calls.
Proof.
  induction fuel as [|fuel IH]; intros remaining acc L; [lia|].
  simpl. unfold exec.
  destruct (search tool_call_re remaining) as [[rest m]|] eqn:E.
  - apply tool_search_shrinks in E. apply IH. lia.
  - eauto.
Qed.

Lemma collect_unguarded_total (fuel : nat) :
  forall (remaining : jsstring) (acc : list (ToolCall J)),
    List.length remaining < fuel ->
    exists r, collect_unguarded JSON_parse fuel remaining acc = Some r.
Proof.
  induction fuel as [|fuel IH]; intros remaining acc L; [lia|].
  simpl. unfold exec.
  destruct (search tool_call_re remaining) as [[rest m]|] eqn:E.
  - apply tool_search_shrinks in E.
    destruct (push_unguarded JSON_parse acc m); [|eauto].
    apply IH. lia.
  - eauto.
Qed.

(** [parseHarmony] returns on every input. *)
Lemma parseHarmony_total (text : jsstring) :
  exists p, parseHarmony JSON_parse text = Some p.
Proof.
  unfold parseHarmony.
  destruct (collect_guarded_total (fuel := S (List.length text)) text [])
    as [calls ->]; [lia|].
  eauto.
Qed.

(** [parseHarmonyResponse] returns or throws on every input. *)
Lemma parseHarmonyResponse_total (response : jsstring) :
  exists r, parseHarmonyResponse JSON_parse response = Some r.
Proof.
  unfold parseHarmonyResponse.
  destruct (collect_unguarded_total (fuel := S (List.length response))
              response []) as [[calls|e] ->]; [lia | |]; eauto.
Qed.

(** The channel fields of [parseHarmony] are the three sections. *)
Lemma parseHarmony_channel (text : jsstring) (p : Parsed J)
    (ch : channel_name) :
  parseHarmony JSON_parse text = Some p ->
  channel_field ch p = section text ch.
Proof.
  unfold parseHarmony.
  destruct (collect_guarded _ _ _ _); [|discriminate].
  intros H. injection H as <-. destruct ch; reflexivity.
Qed.

Lemma parseHarmonyResponse_channel (response : jsstring) (p : Parsed J)
    (ch : channel_name) :
  parseHarmonyResponse JSON_parse response = Some (Ok p) ->
  channel_field ch p = section response ch.
Proof.
  unfold parseHarmonyResponse.
  destruct (collect_unguarded _ _ _ _) as [[calls|e]|]; try discriminate.
  intros H. injection H as <-. destruct ch; reflexivity.
Qed.

(** The loop over a response made of blocks: the calls that decode, in
    block order. *)
Lemma collect_guarded_blocks (bs : list block) (tail : jsstring) :
  forallb block_ok bs = true ->
  occurs TOOL_CALL_OPEN tail = false ->
  forall (fuel : nat) (acc : list (ToolCall J)),
    List.length bs < fuel ->
    collect_guarded JSON_parse fuel (blocks_text bs tail) acc
    = Some (acc ++ decoded_calls JSON_parse bs).
Proof.
  intros Hok Ht. induction bs as [|b bs IH]; intros fuel acc L.
  - destruct fuel as [|fuel]; [simpl in L; lia|].
    simpl. unfold exec. rewrite (tool_search_absent _ Ht).
    rewrite app_nil_r. reflexivity.
  - simpl in Hok. apply andb_true_iff in Hok as [Hb Hbs].
    destruct fuel as [|fuel]; [simpl in L; lia|].
    simpl. unfold exec. rewrite (tool_search_block _ _ Hb).
    rewrite (IH Hbs); [|simpl in L; lia].
    f_equal. simpl decoded_calls. unfold push_guarded, block_call.
    simpl capture. cbv iota beta.
    destruct (JSON_parse (trim (b_payload b)));
      [rewrite <- app_assoc|]; reflexivity.
Qed.

End ParserProperties.

(** ** Rendering a message *)

Lemma renderMessage_agrees (role content : jsstring)
    (channel : option jsstring) :
  HarmonyEncoder.renderMessage role content channel
  = renderHarmonyMessage role content channel.
Proof.
  unfold HarmonyEncoder.renderMessage, renderHarmonyMessage.
  destruct (truthy channel); simpl app; repeat rewrite <- app_assoc;
    reflexivity.
Qed.

(** C10: for every role and content, an empty channel argument renders
    exactly the wire text of an absent channel, namely the start and
    message tokens, the role, the end token and the content, with no
    channel token and no channel literal. *)
Theorem C10_empty_channel_is_absent_channel (role content : jsstring) :
  renderHarmonyMessage role content (Some [])
  = renderHarmonyMessage role content None
  /\ renderHarmonyMessage role content None
     = TOKENS.START ++ TOKENS.MESSAGE ++ role ++ TOKENS.END ++ content.
Proof. split; reflexivity. Qed.

(** ** Round trip *)

(** In the wire text of one assistant turn the marker of the turn's
    channel is first met right before the content. *)
Lemma assistant_turn_marker (ch : channel_name) (content : jsstring) :
  after_first (channel_marker ch)
    (encodeHarmonyConversation [assistant_turn ch content])
  = Some content.
Proof. destruct ch; reflexivity. Qed.

(** The markers of the other channels occur only if the content holds a
    channel boundary. *)
Lemma assistant_turn_other_marker (ch ch' : channel_name)
    (content : jsstring) :
  ch' <> ch ->
  occurs CHANNEL_AHEAD content = false ->
  after_first (channel_marker ch')
    (encodeHarmonyConversation [assistant_turn ch content])
  = None.
Proof.
  intros Hne Hc. unfold occurs in Hc.
  destruct (after_first CHANNEL_AHEAD content) eqn:E; [discriminate|].
  apply (after_first_prefix_absent _
           (skipn (List.length CHANNEL_AHEAD) (channel_marker ch'))) in E.
  destruct ch, ch'; try congruence; exact E.
Qed.

Section RoundTrip.

Variable J : Type.
Variable JSON_parse : jsstring -> option J.

(** C1: for every assistant turn with one of the three channels whose
    content holds no channel boundary, batch-parsing the encoded turn
    gives that channel the content, trimmed, and leaves the other two
    channels absent. *)
Theorem C1_round_trip (ch : channel_name) (content : jsstring) :
  occurs CHANNEL_AHEAD content = false ->
  exists p,
    parseHarmony JSON_parse
      (encodeHarmonyConversation [assistant_turn ch content]) = Some p
    /\ channel_field ch p = Some (trim content)
    /\ forall ch', ch' <> ch -> channel_field ch' p = None.
Proof.
  intros Hc.
  destruct (parseHarmony_total JSON_parse
              (encodeHarmonyConversation [assistant_turn ch content]))
    as [p Hp].
  exists p. split; [exact Hp|]. split.
  - rewrite (parseHarmony_channel _ _ ch Hp), section_spec,
      assistant_turn_marker.
    simpl option_map. rewrite before_absent; [reflexivity|].
    unfold occurs in Hc.
    destruct (after_first CHANNEL_AHEAD content); [discriminate|reflexivity].
  - intros ch' Hne.
    rewrite (parseHarmony_channel _ _ ch' Hp), section_spec,
      assistant_turn_other_marker by assumption.
    reflexivity.
Qed.

End RoundTrip.

(** The concrete round trip of the specification, with the reference
    decoder. *)
Lemma C1_round_trip_witness :
  occurs CHANNEL_AHEAD (lit "Here's the answer") = false
  /\ exists p,
       parseHarmony JSONRef.parse
         (encodeHarmonyConversation
            [assistant_turn final_ch (lit "Here's the answer")]) = Some p
       /\ channel_field final_ch p = Some (trim (lit "Here's the answer"))
       /\ forall ch', ch' <> final_ch -> channel_field ch' p = None.
Proof.
  split; [reflexivity|].
  apply (C1_round_trip JSONRef.parse final_ch (lit "Here's the answer")).
  reflexivity.
Defined.

Example round_trip_final :
  parseHarmony JSONRef.parse
    (renderHarmonyMessage (lit "assistant") (lit "Here's the answer")
       (Some (lit "final")))
  = Some {| analysis := None;
            commentary := None;
            final := Some (lit "Here's the answer");
            toolCalls := None |}.
Proof. vm_compute. reflexivity. Qed.

(** Content that holds a channel boundary is cut there. *)
Example round_trip_truncates :
  option_map final
    (parseHarmony JSONRef.parse
       (renderHarmonyMessage (lit "assistant") (lit "a<|channel|>b")
          (Some (lit "final"))))
  = Some (Some (lit "a")).
Proof. vm_compute. reflexivity. Qed.

(** ** Repeated channel markers *)

Lemma before_body (body rest : jsstring) :
  occurs CHANNEL_AHEAD body = false ->
  rest = [] \/ (exists t, rest = CHANNEL_AHEAD ++ t) ->
  before CHANNEL_AHEAD (body ++ rest) = body.
Proof.
  intros Hb [-> | [t ->]].
  - rewrite app_nil_r. apply before_absent.
    unfold occurs in Hb.
    destruct (after_first CHANNEL_AHEAD body); [discriminate | reflexivity].
  - apply before_ends. apply absent_ends_first; [reflexivity | exact Hb].
Qed.

(** The section of a channel is the trimmed text between the first
    marker of that channel and the next channel boundary. *)
Lemma section_first_occurrence (ch : channel_name)
    (pre body rest : jsstring) :
  ends_first (channel_marker ch) pre = true ->
  occurs CHANNEL_AHEAD body = false ->
  rest = [] \/ (exists t, rest = CHANNEL_AHEAD ++ t) ->
  section (pre ++ channel_marker ch ++ body ++ rest) ch = Some (trim body).
Proof.
  intros Hpre Hbody Hrest.
  rewrite section_spec, after_first_ends by exact Hpre.
  simpl option_map. rewrite before_body by assumption. reflexivity.
Qed.

Section RepeatedChannel.

Variable J : Type.
Variable JSON_parse : jsstring -> option J.

(** C9: when the first marker of a channel comes right after [pre] and
    is followed by [body], free of channel boundaries, and then by the
    end of the text or by a channel boundary and any further text,
    including further markers of the same channel, both batch parsers
    give the channel the trimmed [body]: [parseHarmony] always, and
    [parseHarmonyResponse] whenever it returns a result. *)
Theorem C9_first_marker_wins (ch : channel_name)
    (pre body rest : jsstring) :
  ends_first (channel_marker ch) pre = true ->
  occurs CHANNEL_AHEAD body = false ->
  rest = [] \/ (exists t, rest = CHANNEL_AHEAD ++ t) ->
  let text := pre ++ channel_marker ch ++ body ++ rest in
  (exists p, parseHarmony JSON_parse text = Some p
             /\ channel_field ch p = Some (trim body))
  /\ (exists r, parseHarmonyResponse JSON_parse text = Some r
                /\ forall p, r = Ok p ->
                             channel_field ch p = Some (trim body)).
Proof.
  intros Hpre Hbody Hrest text.
  pose proof (@section_first_occurrence ch pre body rest Hpre Hbody Hrest)
    as Hs.
  fold text in Hs. split.
  - destruct (parseHarmony_total JSON_parse text) as [p Hp].
    exists p. split; [exact Hp|].
    rewrite (parseHarmony_channel _ _ ch Hp). exact Hs.
  - destruct (parseHarmonyResponse_total JSON_parse text) as [r Hr].
    exists r. split; [exact Hr|].
    intros p ->. rewrite (parseHarmonyResponse_channel _ _ ch Hr). exact Hs.
Qed.

End RepeatedChannel.

(** Two analysis sections: the second one is ignored. *)
Lemma C9_first_marker_wins_witness :
  let text :=
    lit "x" ++ channel_marker analysis_ch ++ lit " first "
      ++ (CHANNEL_AHEAD ++ lit ">analysis<|end|>second") in
  (exists p, parseHarmony JSONRef.parse text = Some p
             /\ channel_field analysis_ch p = Some (trim (lit " first ")))
  /\ (exists r, parseHarmonyResponse JSONRef.parse text = Some r
                /\ forall p, r = Ok p ->
                     channel_field analysis_ch p = Some (trim (lit " first "))).
Proof.
  apply (C9_first_marker_wins JSONRef.parse analysis_ch
           (lit "x") (lit " first ")).
  - reflexivity.
  - reflexivity.
  - right. exists (lit ">analysis<|end|>second"). reflexivity.
Defined.

Example repeated_analysis :
  option_map analysis
    (parseHarmony JSONRef.parse
       (lit "<|channel|>analysis<|end|>one<|channel|>analysis<|end|>two"))
  = Some (Some (lit "one")).
Proof. vm_compute. reflexivity. Qed.

(** ** Tool calls of a response made of blocks *)

Section BlockResponses.

Variable J : Type.
Variable JSON_parse : jsstring -> option J.

Lemma blocks_text_length (bs : list block) (tail : jsstring) :
  List.length bs <= List.length (blocks_text bs tail).
Proof.
  induction bs as [|b bs IH]; simpl; [lia|].
  unfold block_text. rewrite !length_app.
  change (List.length TOOL_CALL_OPEN) with 11. lia.
Qed.

(** C5, as the code has it: for every response made of tool-call
    blocks in each of which no tag occurs in the text that leads up to
    it and the name holds no line terminator, [parseHarmony] returns
    the calls of exactly the blocks whose payload decodes, in the order
    of the blocks; a block that does not decode is left out and changes
    neither the order nor the number of the others. *)
Theorem C5_calls_in_block_order (bs : list block) (tail : jsstring) :
  forallb block_ok bs = true ->
  occurs TOOL_CALL_OPEN tail = false ->
  exists p,
    parseHarmony JSON_parse (blocks_text bs tail) = Some p
    /\ toolCalls p = nonempty_or_absent (decoded_calls JSON_parse bs).
Proof.
  intros Hok Ht. unfold parseHarmony.
  rewrite (collect_guarded_blocks JSON_parse bs tail Hok Ht).
  - simpl app. eexists. split; reflexivity.
  - pose proof (blocks_text_length bs tail). lia.
Qed.

(** The loop of [parseHarmonyResponse] over blocks stops at the first
    payload that does not decode. *)
Lemma collect_unguarded_blocks (bs : list block) (tail : jsstring) :
  forallb block_ok bs = true ->
  occurs TOOL_CALL_OPEN tail = false ->
  forall (fuel : nat) (acc : list (ToolCall J)),
    List.length bs < fuel ->
    collect_unguarded JSON_parse fuel (blocks_text bs tail) acc
    = Some (if existsb (malformed JSON_parse) bs
            then Throw SyntaxError
            else Ok (acc ++ decoded_calls JSON_parse bs)).
Proof.
  intros Hok Ht. induction bs as [|b bs IH]; intros fuel acc L.
  - destruct fuel as [|fuel]; [simpl in L; lia|].
    simpl. unfold exec. rewrite (tool_search_absent _ Ht).
    rewrite app_nil_r. reflexivity.
  - simpl in Hok. apply andb_true_iff in Hok as [Hb Hbs].
    destruct fuel as [|fuel]; [simpl in L; lia|].
    simpl. unfold exec. rewrite (tool_search_block _ _ Hb).
    unfold push_unguarded, malformed, block_call. simpl capture.
    cbv iota beta.
    destruct (JSON_parse (trim (b_payload b))); [|reflexivity].
    rewrite (IH Hbs); [|simpl in L; lia].
    simpl orb. unfold malformed. rewrite <- app_assoc. reflexivity.
Qed.

(** C2: on a response made of tool-call blocks of which at least one
    has a payload that does not decode, [parseHarmony] returns, with
    the calls of the other blocks only; [parseHarmonyResponse], which
    calls the decoder outside any [try], throws the decoder's
    [SyntaxError] to its caller instead. *)
Theorem C2_malformed_block (bs : list block) (tail : jsstring) :
  forallb block_ok bs = true ->
  occurs TOOL_CALL_OPEN tail = false ->
  existsb (malformed JSON_parse) bs = true ->
  (exists p,
     parseHarmony JSON_parse (blocks_text bs tail) = Some p
     /\ toolCalls p = nonempty_or_absent (decoded_calls JSON_parse bs))
  /\ parseHarmonyResponse JSON_parse (blocks_text bs tail)
     = Some (Throw SyntaxError).
Proof.
  intros Hok Ht Hbad. split.
  - unfold parseHarmony.
    rewrite (collect_guarded_blocks JSON_parse bs tail Hok Ht).
    + simpl app. eexists. split; reflexivity.
    + pose proof (blocks_text_length bs tail). lia.
  - unfold parseHarmonyResponse.
    rewrite (collect_unguarded_blocks bs tail Hok Ht).
    + rewrite Hbad. reflexivity.
    + pose proof (blocks_text_length bs tail). lia.
Qed.

(** A block that does not decode contributes no call. *)
Lemma decoded_calls_malformed (b : block) (bs : list block) :
  malformed JSON_parse b = true ->
  decoded_calls JSON_parse (b :: bs) = decoded_calls JSON_parse bs.
Proof.
  unfold malformed. simpl. unfold block_call.
  destruct (JSON_parse (trim (b_payload b))); [discriminate | reflexivity].
Qed.

(** When the malformed block is the only one, [parseHarmony] leaves
    [toolCalls] unset. *)
Lemma parseHarmony_only_block_malformed (b : block) (tail : jsstring) :
  block_ok b = true ->
  occurs TOOL_CALL_OPEN tail = false ->
  malformed JSON_parse b = true ->
  exists p,
    parseHarmony JSON_parse (blocks_text [b] tail) = Some p
    /\ toolCalls p = None.
Proof.
  intros Hok Ht Hbad. unfold parseHarmony.
  rewrite (collect_guarded_blocks JSON_parse [b] tail);
    [| simpl; rewrite Hok; reflexivity | exact Ht
     | pose proof (blocks_text_length [b] tail); simpl in *; lia ].
  rewrite (decoded_calls_malformed b [] Hbad). simpl.
  eexists. split; reflexivity.
Qed.

(** Of two blocks, one malformed and one that decodes to the call [c],
    [parseHarmony] returns exactly [c], whichever comes first. *)
Lemma parseHarmony_one_of_two (good bad : block) (c : ToolCall J)
    (tail : jsstring) :
  block_ok good = true -> block_ok bad = true ->
  occurs TOOL_CALL_OPEN tail = false ->
  block_call JSON_parse good = Some c ->
  malformed JSON_parse bad = true ->
  (exists p,
     parseHarmony JSON_parse (blocks_text [bad; good] tail) = Some p
     /\ toolCalls p = Some [c])
  /\ (exists p,
        parseHarmony JSON_parse (blocks_text [good; bad] tail) = Some p
        /\ toolCalls p = Some [c]).
Proof.
  intros Hg Hb Ht Hc Hbad. unfold parseHarmony. split.
  - rewrite (collect_guarded_blocks JSON_parse [bad; good] tail);
      [| simpl; rewrite Hg, Hb; reflexivity | exact Ht
       | pose proof (blocks_text_length [bad; good] tail); simpl in *; lia ].
    rewrite (decoded_calls_malformed bad [good] Hbad). simpl. rewrite Hc.
    eexists. split; reflexivity.
  - rewrite (collect_guarded_blocks JSON_parse [good; bad] tail);
      [| simpl; rewrite Hg, Hb; reflexivity | exact Ht
       | pose proof (blocks_text_length [good; bad] tail); simpl in *; lia ].
    change (decoded_calls JSON_parse [good; bad])
      with (match block_call JSON_parse good with
            | Some c => c :: decoded_calls JSON_parse [bad]
            | None => decoded_calls JSON_parse [bad]
            end).
    rewrite Hc, (decoded_calls_malformed bad [] Hbad). simpl.
    eexists. split; reflexivity.
Qed.

End BlockResponses.

(** The second example of the specification: a malformed block followed
    by a call of [get_time]. *)
Lemma C5_calls_in_block_order_witness :
  exists p,
    parseHarmony JSONRef.parse (blocks_text [bad_block; time_block] []) = Some p
    /\ toolCalls p
       = nonempty_or_absent
           (decoded_calls JSONRef.parse [bad_block; time_block]).
Proof.
  apply (C5_calls_in_block_order JSONRef.parse [bad_block; time_block] []);
    reflexivity.
Defined.

(** Two blocks of which exactly one is malformed, and no call: the
    payload of the other block decodes, but its name stands on a line
    of its own, or its payload, a JSON object, holds the closing tag of
    the payload in a string. *)
Lemma C5_counterexample :
  malformed JSONRef.parse bad_block = true
  /\ malformed JSONRef.parse own_line_block = false
  /\ malformed JSONRef.parse tag_payload_block = false
  /\ option_map toolCalls
       (parseHarmony JSONRef.parse
          (blocks_text [bad_block; own_line_block] []))
     = Some None
  /\ option_map toolCalls
       (parseHarmony JSONRef.parse
          (blocks_text [bad_block; tag_payload_block] []))
     = Some None.
Proof. repeat split; vm_compute; reflexivity. Qed.

Example mixed_blocks :
  option_map toolCalls
    (parseHarmony JSONRef.parse (blocks_text [bad_block; time_block] []))
  = Some (Some [{| tc_name := lit "get_time";
                   tc_parameters :=
                     JSONRef.JObject [(lit "x", JSONRef.JNumber 1 0)] |}]).
Proof. vm_compute. reflexivity. Qed.

Example mixed_blocks_swapped :
  option_map toolCalls
    (parseHarmony JSONRef.parse (blocks_text [time_block; bad_block] []))
  = Some (Some [{| tc_name := lit "get_time";
                   tc_parameters :=
                     JSONRef.JObject [(lit "x", JSONRef.JNumber 1 0)] |}]).
Proof. vm_compute. reflexivity. Qed.

(** A response whose only block carries the payload [{not json]. *)
Lemma C2_malformed_block_witness :
  (exists p,
     parseHarmony JSONRef.parse (blocks_text [bad_block] []) = Some p
     /\ toolCalls p
        = nonempty_or_absent (decoded_calls JSONRef.parse [bad_block]))
  /\ parseHarmonyResponse JSONRef.parse (blocks_text [bad_block] [])
     = Some (Throw SyntaxError).
Proof.
  apply (C2_malformed_block JSONRef.parse [bad_block] []); reflexivity.
Defined.

Example malformed_only_block :
  parseHarmony JSONRef.parse
    (lit "<tool_call><tool_name>search</tool_name><parameters>{not json</parameters></tool_call>")
  = Some {| analysis := None; commentary := None; final := None;
            toolCalls := None |}
  /\ parseHarmonyResponse JSONRef.parse
       (lit "<tool_call><tool_name>search</tool_name><parameters>{not json</parameters></tool_call>")
     = Some (Throw SyntaxError).
Proof. split; vm_compute; reflexivity. Qed.

(** ** Joining and splitting *)

Lemma join_cons (sep p : jsstring) (rest : list jsstring) :
  rest <> [] -> join sep (p :: rest) = p ++ sep ++ join sep rest.
Proof. destruct rest; [congruence | reflexivity]. Qed.

Lemma join_infix (sep x : jsstring) (parts : list jsstring) :
  In x parts -> infix x (join sep parts).
Proof.
  induction parts as [|p parts IH]; intros H; [destruct H|].
  destruct parts as [|q parts].
  - destruct H as [-> | []]. exists [], []. simpl. rewrite app_nil_r.
    reflexivity.
  - rewrite join_cons by discriminate. destruct H as [-> | H].
    + exists [], (sep ++ join sep (q :: parts)). reflexivity.
    + destruct (IH H) as (pre & post & E).
      exists (p ++ sep ++ pre), post. rewrite E.
      repeat rewrite <- app_assoc. reflexivity.
Qed.

Lemma no_newline_app (a b : jsstring) :
  no_newline (a ++ b) = no_newline a && no_newline b.
Proof. apply forallb_app. Qed.

Lemma split_on_line (a b : jsstring) :
  no_newline a = true -> split_on 10%N (a ++ NL ++ b) = a :: split_on 10%N b.
Proof.
  induction a as [|c a IH]; intros H; simpl in *.
  - reflexivity.
  - apply andb_true_iff in H as [Hc Ha].
    destruct (jschar_eqb c 10%N); [discriminate|].
    rewrite (IH Ha). reflexivity.
Qed.

(** Joined lines, followed by a newline, split back into the lines; an
    empty list of lines leaves one empty line. *)
Lemma split_on_join (ls : list jsstring) (b : jsstring) :
  forallb no_newline ls = true ->
  split_on 10%N (join NL ls ++ NL ++ b)
  = match ls with [] => [[]] | _ :: _ => ls end ++ split_on 10%N b.
Proof.
  induction ls as [|l ls IH]; intros H.
  - reflexivity.
  - simpl in H. apply andb_true_iff in H as [Hl Hls].
    destruct ls as [|l' ls].
    + simpl join. rewrite split_on_line by exact Hl. reflexivity.
    + rewrite join_cons by discriminate.
      repeat rewrite <- app_assoc. rewrite split_on_line by exact Hl.
      rewrite (IH Hls). reflexivity.
Qed.

(** ** Roles *)

(** C3, as the code has it: no role is rejected, and no encoder has
    an error to fail with.  Every turn of a conversation, whatever its
    role, is rendered by [encodeHarmonyConversation] with its role
    verbatim and occurs in the wire text, so that encoder never drops a
    turn; and every turn whose role is system, user or assistant is
    rendered by [HarmonyEncoder.convertToHarmonyFormat] and occurs in
    its wire text (a system or user turn without its channel). *)
Theorem C3_roles_are_not_checked (messages : list message) (m : message) :
  In m messages ->
  infix (TOKENS.START ++ TOKENS.MESSAGE ++ m.(role)
           ++ (if truthy m.(channel)
               then TOKENS.CHANNEL ++ or_empty m.(channel) else [])
           ++ TOKENS.END ++ m.(content))
        (encodeHarmonyConversation messages)
  /\ (rendered_role m.(role) ->
      infix (renderHarmonyMessage m.(role) m.(content)
               (if jsstring_eqb m.(role) (lit "assistant")
                then m.(channel) else None))
            (HarmonyEncoder.convertToHarmonyFormat messages)).
Proof.
  intros Hin. split.
  - apply (join_infix NL).
    apply (in_map (fun m => renderHarmonyMessage m.(role) m.(content)
                              m.(channel))) in Hin.
    exact Hin.
  - intros Hr.
    assert (E : HarmonyEncoder.convertMessage m
                = renderHarmonyMessage m.(role) m.(content)
                    (if jsstring_eqb m.(role) (lit "assistant")
                     then m.(channel) else None)).
    { unfold HarmonyEncoder.convertMessage, rendered_role in *.
      rewrite !renderMessage_agrees.
      destruct Hr as [E | [E | E]]; rewrite E; reflexivity. }
    rewrite <- E. apply (join_infix NL). apply in_map. exact Hin.
Qed.

(** A conversation with a turn of role [wizard] and an assistant turn:
    the first encoder renders the [wizard] turn, both render the
    assistant turn. *)
Lemma C3_roles_are_not_checked_witness :
  infix (TOKENS.START ++ TOKENS.MESSAGE ++ lit "wizard" ++ TOKENS.END
           ++ lit "hi")
        (encodeHarmonyConversation
           [wizard_turn; assistant_turn final_ch (lit "hello")])
  /\ infix (renderHarmonyMessage (lit "assistant") (lit "hello")
              (Some (lit "final")))
           (HarmonyEncoder.convertToHarmonyFormat
              [wizard_turn; assistant_turn final_ch (lit "hello")]).
Proof.
  split.
  - apply (C3_roles_are_not_checked
             [wizard_turn; assistant_turn final_ch (lit "hello")]
             wizard_turn).
    left. reflexivity.
  - apply (C3_roles_are_not_checked
             [wizard_turn; assistant_turn final_ch (lit "hello")]
             (assistant_turn final_ch (lit "hello"))).
    + right. left. reflexivity.
    + right. right. reflexivity.
Defined.

(** A turn with role [wizard] is encoded, role included: the call does
    not fail, and the unrecognized role is in the wire text. *)
Lemma C3_counterexample :
  encodeHarmonyConversation [wizard_turn]
  = lit "<|start|><|message|>wizard<|end|>hi".
Proof. reflexivity. Qed.

(** ** Tool namespaces *)

Lemma entry_one_line_ok (kv : jsstring * property) :
  entry_one_line kv = true -> no_newline (property_line kv) = true.
Proof.
  destruct kv as [k v]. unfold entry_one_line, property_line. simpl fst.
  simpl snd. rewrite !andb_true_iff. intros [[Hk Ht] Hd].
  rewrite !no_newline_app, Hk, Ht, Hd. reflexivity.
Qed.

Lemma entries_one_line_ok (props : list (jsstring * property)) :
  forallb entry_one_line props = true ->
  forallb no_newline (map property_line props) = true.
Proof.
  induction props as [|kv props IH]; simpl; [reflexivity|].
  rewrite !andb_true_iff. intros [H1 H2].
  split; [apply entry_one_line_ok; exact H1 | apply IH; exact H2].
Qed.

(** C4, as the code has it: a declaration whose name and entries hold
    no newline is rendered with one line per parameter, in entry order
    (a single empty line when there is no parameter), between the
    [namespace] line and the closing brace; a parameter's line is two
    spaces, its name, a colon and a space, its declared type verbatim
    (the text [undefined] when absent), then [; // ] and its
    description (nothing when empty or absent).
    [convertToolsToTypeScript] puts the three lines of the description
    comment before the same parameter lines. *)
Theorem C4_parameter_lines (fn : tool_function)
    (props : list (jsstring * property)) :
  fn.(parameters) = Some {| properties := Some props |} ->
  no_newline fn.(fn_name) = true ->
  no_newline (or_empty fn.(fn_description)) = true ->
  forallb entry_one_line props = true ->
  let parameter_lines :=
    match props with
    | [] => [[]]
    | _ :: _ =>
        map (fun kv =>
               lit "  " ++ fst kv ++ lit ": "
                 ++ match (snd kv).(type) with
                    | Some t => t
                    | None => lit "undefined"
                    end
                 ++ lit "; // "
                 ++ match (snd kv).(p_description) with
                    | Some d => d
                    | None => []
                    end)
            props
    end in
  (exists out,
     namespace_block {| function := Some fn |} = Ok out
     /\ split_on 10%N out
        = [lit "namespace " ++ fn.(fn_name) ++ lit " {"]
            ++ parameter_lines ++ [lit "}"])
  /\ (exists out,
        documented_namespace_block {| function := Some fn |} = Ok out
        /\ split_on 10%N out
           = [lit "namespace " ++ fn.(fn_name) ++ lit " {";
              lit "  /**";
              lit "   * " ++ or_empty fn.(fn_description);
              lit "   */"]
               ++ parameter_lines ++ [lit "}"]).
Proof.
  intros Hp Hn Hd Hprops parameter_lines.
  assert (Hlines : parameter_lines
                   = match map property_line props with
                     | [] => [[]]
                     | _ :: _ => map property_line props
                     end).
  { subst parameter_lines. destruct props as [|kv props]; [reflexivity|].
    apply map_ext. intros [k v]. reflexivity. }
  assert (Hhead : no_newline (lit "namespace " ++ fn_name fn ++ lit " {") = true)
    by (rewrite !no_newline_app, Hn; reflexivity).
  apply entries_one_line_ok in Hprops.
  split.
  - eexists. split.
    + unfold namespace_block, properties_or_empty. simpl function.
      cbv iota beta. rewrite Hp. simpl properties. reflexivity.
    + repeat rewrite <- app_assoc.
      rewrite (app_assoc (lit "namespace ")), (app_assoc _ (lit " {")).
      rewrite <- (app_assoc (lit "namespace ")).
      rewrite split_on_line by exact Hhead.
      rewrite split_on_join by exact Hprops.
      rewrite Hlines. reflexivity.
  - eexists. split.
    + unfold documented_namespace_block. simpl function.
      cbv iota beta. rewrite Hp. simpl properties. reflexivity.
    + repeat rewrite <- app_assoc.
      rewrite (app_assoc (lit "namespace ")), (app_assoc _ (lit " {")).
      rewrite <- (app_assoc (lit "namespace ")).
      rewrite split_on_line by exact Hhead.
      rewrite split_on_line by reflexivity.
      rewrite (app_assoc (lit "   * ")).
      rewrite split_on_line by (rewrite no_newline_app, Hd; reflexivity).
      rewrite split_on_line by reflexivity.
      rewrite split_on_join by exact Hprops.
      rewrite Hlines. reflexivity.
Qed.

Lemma C4_parameter_lines_witness :
  exists out,
    namespace_block
      (search_tool [(lit "q", untyped_property);
                    (lit "limit", {| type := Some (lit "number");
                                     p_description := Some (lit "how many") |})])
    = Ok out
    /\ split_on 10%N out
       = [lit "namespace search {";
          lit "  q: undefined; // ";
          lit "  limit: number; // how many";
          lit "}"].
Proof.
  exact (proj1
           (@C4_parameter_lines
              (search_function
                 [(lit "q", untyped_property);
                  (lit "limit", {| type := Some (lit "number");
                                   p_description := Some (lit "how many") |})])
              _ eq_refl eq_refl eq_refl eq_refl)).
Defined.

(** A parameter without type or description renders as [undefined] with
    the comment marker still there; an unknown type renders verbatim;
    the token [any] is never produced. *)
Lemma C4_counterexample :
  toolsToTypeScriptNamespace [search_tool [(lit "q", untyped_property)]]
  = Ok (lit "namespace search {" ++ NL
          ++ lit "  q: undefined; // " ++ NL ++ lit "}")
  /\ convertToolsToTypeScript [search_tool [(lit "q", untyped_property)]]
     = Ok (lit "namespace search {" ++ NL
             ++ lit "  /**" ++ NL
             ++ lit "   * Search the workspace" ++ NL
             ++ lit "   */" ++ NL
             ++ lit "  q: undefined; // " ++ NL ++ lit "}")
  /\ property_line (lit "when", {| type := Some (lit "date");
                                   p_description := Some [] |})
     = lit "  when: date; // ".
Proof. repeat split; reflexivity. Qed.

(** ** Catalogs with repeated names *)

Lemma map_throwing_ok {A B : Type} (f : A -> outcome B) (l : list A) :
  Forall (fun a => exists b, f a = Ok b) l ->
  exists bs,
    map_throwing f l = Ok bs /\ Forall2 (fun a b => f a = Ok b) l bs.
Proof.
  induction 1 as [|a l [b Hb] _ (bs & Hbs & HF)].
  - exists []. split; [reflexivity | constructor].
  - exists (b :: bs). simpl. rewrite Hb, Hbs. simpl.
    split; [reflexivity | constructor; assumption].
Qed.

(** C6, as the code has it: the catalog is a plain array and nothing
    checks its names.  Whenever every declaration has its [function]
    member, repeated names or not, the renderer succeeds and joins one
    namespace block per declaration, in catalog order, with a blank
    line between blocks. *)
Theorem C6_repeated_names_are_rendered (tools : list tool) :
  Forall (fun t => t.(function) <> None) tools ->
  exists blocks,
    Forall2 (fun t b => namespace_block t = Ok b) tools blocks
    /\ toolsToTypeScriptNamespace tools = Ok (join (NL ++ NL) blocks).
Proof.
  intros H.
  destruct (map_throwing_ok namespace_block (l := tools)) as (bs & Hbs & HF).
  - eapply Forall_impl; [|exact H]. intros t Ht. cbv beta in Ht.
    unfold namespace_block.
    destruct (function t); [eauto | congruence].
  - exists bs. split; [exact HF|].
    unfold toolsToTypeScriptNamespace. rewrite Hbs. reflexivity.
Qed.

Lemma C6_repeated_names_are_rendered_witness :
  exists blocks,
    Forall2 (fun t b => namespace_block t = Ok b)
      [search_tool []; search_tool []] blocks
    /\ toolsToTypeScriptNamespace [search_tool []; search_tool []]
       = Ok (join (NL ++ NL) blocks).
Proof.
  apply (@C6_repeated_names_are_rendered [search_tool []; search_tool []]).
  repeat constructor; discriminate.
Defined.

(** Two declarations named [search] are accepted and both rendered. *)
Lemma C6_counterexample :
  toolsToTypeScriptNamespace [search_tool []; search_tool []]
  = Ok (lit "namespace search {" ++ NL ++ NL ++ lit "}" ++ NL ++ NL
          ++ lit "namespace search {" ++ NL ++ NL ++ lit "}").
Proof. reflexivity. Qed.

(** ** What the renderers read *)

Lemma map_Forall2 {A B : Type} (R : A -> A -> Prop) (f : A -> B)
    (l1 l2 : list A) :
  (forall a b, R a b -> f a = f b) -> Forall2 R l1 l2 -> map f l1 = map f l2.
Proof.
  intros Hf. induction 1 as [|a b l1 l2 Hab _ IH]; simpl; [reflexivity|].
  rewrite (Hf _ _ Hab), IH. reflexivity.
Qed.

Lemma map_throwing_Forall2 {A B : Type} (R : A -> A -> Prop)
    (f : A -> outcome B) (l1 l2 : list A) :
  (forall a b, R a b -> f a = f b) -> Forall2 R l1 l2 ->
  map_throwing f l1 = map_throwing f l2.
Proof.
  intros Hf. induction 1 as [|a b l1 l2 Hab _ IH]; simpl; [reflexivity|].
  rewrite (Hf _ _ Hab), IH. reflexivity.
Qed.

Lemma same_turn_render (a b : message) :
  same_turn a b ->
  renderHarmonyMessage a.(role) a.(content) a.(channel)
  = renderHarmonyMessage b.(role) b.(content) b.(channel).
Proof.
  intros (Hr & Hc & Hch). unfold renderHarmonyMessage. rewrite Hr, Hc.
  do 3 f_equal.
  destruct (channel a) as [[|x ca]|], (channel b) as [[|y cb]|];
    simpl in *; congruence.
Qed.

Lemma same_entry_line (a b : jsstring * property) :
  same_entry a b -> property_line a = property_line b.
Proof.
  destruct a as [ka va], b as [kb vb]. unfold same_entry, property_line.
  simpl. intros (-> & -> & ->). reflexivity.
Qed.

Lemma same_tool_block (a b : tool) :
  same_tool a b -> namespace_block a = namespace_block b.
Proof.
  unfold same_tool, namespace_block.
  destruct (function a) as [fa|], (function b) as [fb|];
    try contradiction; [|reflexivity].
  intros [Hn Hp]. rewrite Hn.
  rewrite (map_Forall2 property_line same_entry_line Hp). reflexivity.
Qed.

(** X15: the renderers read nothing of their input but this: of a
    turn its role, its content and its channel, an empty channel
    counting as none; of a declaration its name and the name, type and
    description of each parameter.  Conversations that agree on these
    turn by turn get the same wire text from
    [encodeHarmonyConversation], and catalogs that agree on these
    declaration by declaration the same outcome from
    [toolsToTypeScriptNamespace], whatever else differs (the
    description of a tool, say). *)
Theorem renderers_read_no_more
    (messages1 messages2 : list message) (tools1 tools2 : list tool) :
  Forall2 same_turn messages1 messages2 ->
  Forall2 same_tool tools1 tools2 ->
  encodeHarmonyConversation messages1 = encodeHarmonyConversation messages2
  /\ toolsToTypeScriptNamespace tools1 = toolsToTypeScriptNamespace tools2.
Proof.
  intros Hm Ht. split.
  - unfold encodeHarmonyConversation. f_equal.
    apply (map_Forall2 _ same_turn_render Hm).
  - unfold toolsToTypeScriptNamespace. f_equal.
    apply (map_throwing_Forall2 _ same_tool_block Ht).
Qed.

(** A user turn with an empty and with no channel; a tool with and
    without description. *)
Lemma renderers_read_no_more_witness :
  encodeHarmonyConversation
    [{| role := lit "user"; content := lit "hi"; channel := Some [] |}]
  = encodeHarmonyConversation
      [{| role := lit "user"; content := lit "hi"; channel := None |}]
  /\ toolsToTypeScriptNamespace
       [ {| function :=
              Some {| fn_name := lit "search";
                      fn_description := Some (lit "Search the workspace");
                      parameters :=
                        Some {| properties :=
                                  Some [(lit "q", untyped_property)] |} |} |} ]
     = toolsToTypeScriptNamespace
         [ {| function :=
                Some {| fn_name := lit "search";
                        fn_description := None;
                        parameters :=
                          Some {| properties :=
                                    Some [(lit "q", untyped_property)] |} |} |} ].
Proof.
  apply renderers_read_no_more.
  - constructor; [|constructor]. repeat split.
  - constructor; [|constructor]. split; [reflexivity|].
    constructor; [|constructor]. repeat split.
Defined.

(** The channel left out and the channel left empty are not told
    apart, nor is the description of a tool. *)
Example same_wire_text :
  encodeHarmonyConversation
    [{| role := lit "user"; content := lit "hi"; channel := Some [] |}]
  = encodeHarmonyConversation
      [{| role := lit "user"; content := lit "hi"; channel := None |}].
Proof. reflexivity. Qed.

(** ** Matches survive the arrival of more text *)

Lemma tool_match_stages (s : jsstring) :
  match_here tool_call_re s =
  match starts_with TOOL_CALL_OPEN s with
  | Some s1 => open_stage s1
  | None => None
  end.
Proof. reflexivity. Qed.

Lemma starts_with_app_some (w s t r : jsstring) :
  starts_with w s = Some r -> starts_with w (s ++ t) = Some (r ++ t).
Proof.
  intros H. apply starts_with_inv in H. subst s.
  rewrite <- app_assoc. apply starts_with_app.
Qed.

Lemma starts_with_length (w s r : jsstring) :
  starts_with w s = Some r -> List.length w <= List.length s.
Proof.
  intros H. apply starts_with_inv in H. subst s. rewrite length_app. lia.
Qed.

Lemma lazy_star_found (R : Type) (c : cls) (k : jsstring -> option R)
    (s : jsstring) (r : R) :
  lazy_star c k s = Some r -> exists p s', s = p ++ s' /\ k s' = Some r.
Proof.
  induction s as [|x s IH]; rewrite lazy_star_eq.
  - destruct (k []) eqn:E; [|discriminate].
    intros H. exists [], []. split; [reflexivity | congruence].
  - destruct (k (x :: s)) eqn:E.
    + intros H. exists [], (x :: s). split; [reflexivity | congruence].
    + destruct (cls_accepts c x); [|discriminate].
      intros H. destruct (IH H) as (p & s' & -> & Hk).
      exists (x :: p), s'. split; [reflexivity | exact Hk].
Qed.

Lemma search_found (r : regex) (s : jsstring) (x : jsstring * captures) :
  search r s = Some x -> exists p s', s = p ++ s' /\ match_here r s' = Some x.
Proof.
  induction s as [|c s IH]; rewrite search_eq.
  - destruct (match_here r []) eqn:E; [|discriminate].
    intros H. exists [], []. split; [reflexivity | congruence].
  - destruct (match_here r (c :: s)) eqn:E.
    + intros H. exists [], (c :: s). split; [reflexivity | congruence].
    + intros H. destruct (IH H) as (p & s' & -> & Hm).
      exists (c :: p), s'. split; [reflexivity | exact Hm].
Qed.







(** *** Success is kept when text is put in front *)





(** *** Success is kept when text is put behind *)









(** ** Searches survive the arrival of more text *)

Lemma after_first_length (w s r : jsstring) :
  after_first w s = Some r -> List.length w <= List.length s.
Proof.
  induction s as [|c s IH]; rewrite after_first_eq.
  - destruct (starts_with w []) eqn:E; [|discriminate].
    intros _. apply starts_with_length in E. exact E.
  - destruct (starts_with w (c :: s)) eqn:E.
    + intros _. apply starts_with_length in E. exact E.
    + intros H. apply IH in H. simpl. lia.
Qed.

Lemma after_first_app (w s t r : jsstring) :
  after_first w s = Some r ->
  after_first w (s ++ t) = Some (r ++ t)
  /\ before w (s ++ t) = before w s
  /\ from_first w (s ++ t) = from_first w s ++ t.
Proof.
  induction s as [|c s IH];
    rewrite (after_first_eq w (_ ++ t)), (before_eq w (_ ++ t)),
      (from_first_eq w (_ ++ t)), after_first_eq, before_eq, from_first_eq.
  - destruct (starts_with w []) eqn:E; [|discriminate].
    intros H. injection H as ->.
    rewrite (starts_with_app_some _ _ t E). auto.
  - destruct (starts_with w (c :: s)) eqn:E.
    + intros H. injection H as ->.
      rewrite (starts_with_app_some _ _ t E). auto.
    + intros H. pose proof (after_first_length _ _ H) as L.
      rewrite starts_with_none_app; [|exact E | simpl; lia].
      rewrite <- app_comm_cons.
      destruct (IH H) as (H1 & H2 & H3). rewrite H1, H2, H3. auto.
Qed.

(** ** Channel markers *)





(** At a marker, the first marker of every other channel lies in the
    text after it. *)
Lemma other_marker_after (ch x : channel_name) (rest : jsstring) :
  ch <> x ->
  after_first (channel_marker ch) (channel_marker x ++ rest)
  = after_first (channel_marker ch) rest.
Proof. intros H. destruct ch, x; try congruence; reflexivity. Qed.



(** A marker starts at a boundary. *)
Lemma marker_after_boundary (ch : channel_name) (s : jsstring) :
  after_first (channel_marker ch) s
  = after_first (channel_marker ch) (from_first CHANNEL_AHEAD s).
Proof.
  induction s as [|c s IH]; rewrite from_first_eq.
  - destruct (starts_with CHANNEL_AHEAD []); reflexivity.
  - destruct (starts_with CHANNEL_AHEAD (c :: s)) eqn:E; [reflexivity|].
    rewrite after_first_eq.
    replace (starts_with (channel_marker ch) (c :: s)) with (@None jsstring);
      [exact IH|].
    symmetry.
    change (channel_marker ch)
      with (CHANNEL_AHEAD ++ skipn 10 (channel_marker ch)).
    rewrite starts_with_cat, E. reflexivity.
Qed.





(** ** The text around the first marker *)






(** ** The channel steps *)










Lemma channel_name_eqb_eq (a b : channel_name) :
  channel_name_eqb a b = true <-> a = b.
Proof. destruct a, b; simpl; split; congruence. Qed.

(** * Further properties of the sources *)

(** ** Occurrences *)

Lemma occurs_false (w s : jsstring) :
  occurs w s = false <-> after_first w s = None.
Proof. unfold occurs. destruct (after_first w s); split; congruence. Qed.

Lemma occurs_suffix (w p s : jsstring) :
  occurs w (p ++ s) = false -> occurs w s = false.
Proof.
  rewrite !occurs_false. induction p as [|c p IH]; [trivial|].
  rewrite <- app_comm_cons, after_first_eq.
  destruct (starts_with w (c :: p ++ s)); [discriminate | exact IH].
Qed.

Lemma occurs_prefix (w s q : jsstring) :
  occurs w (s ++ q) = false -> occurs w s = false.
Proof.
  rewrite !occurs_false. intros H.
  destruct (after_first w s) as [r|] eqn:E; [|reflexivity].
  destruct (after_first_app _ _ q E) as (H1 & _). congruence.
Qed.

(** A unit that is not in [w] keeps occurrences of [w] from running
    across it. *)
Lemma occurs_barrier (w a b : jsstring) (d : jschar) :
  forallb (fun c => negb (jschar_eqb c d)) w = true ->
  occurs w a = false -> occurs w (d :: b) = false ->
  occurs w (a ++ d :: b) = false.
Proof.
  intros Hw Ha Hb. rewrite occurs_false in Ha |- *. revert Ha.
  induction a as [|c a IH]; rewrite after_first_eq.
  - intros _. apply occurs_false. exact Hb.
  - destruct (starts_with w (c :: a)) eqn:E; [discriminate|].
    intros Ha. rewrite <- app_comm_cons, after_first_eq.
    change (c :: a ++ d :: b) with ((c :: a) ++ d :: b).
    rewrite (starts_with_fresh _ _ _ b Hw E). apply IH. exact Ha.
Qed.

Lemma from_first_ends (w g rest : jsstring) :
  ends_first w g = true -> from_first w (g ++ w ++ rest) = w ++ rest.
Proof.
  induction g as [|c g IH]; intros H; rewrite from_first_eq.
  - rewrite app_nil_l, starts_with_app. reflexivity.
  - apply (ends_first_step _ _ _ rest) in H as [H1 H2].
    rewrite <- app_comm_cons, H1. apply IH. exact H2.
Qed.

(** The text before the first occurrence holds no occurrence. *)
Lemma before_no_occurrence (w s : jsstring) :
  w <> [] -> occurs w (before w s) = false.
Proof.
  intros Hw. rewrite occurs_false.
  induction s as [|c s IH]; rewrite before_eq.
  - destruct (starts_with w []); destruct w; try reflexivity; congruence.
  - destruct (starts_with w (c :: s)) eqn:E.
    + destruct w; [congruence | reflexivity].
    + rewrite after_first_eq.
      destruct (starts_with w (c :: before w s)) as [r|] eqn:E2;
        [exfalso | exact IH].
      apply (starts_with_app_some _ _ (from_first w s)) in E2.
      rewrite <- app_comm_cons, before_from_first in E2. congruence.
Qed.

(** ** Responses made of channel segments *)

Lemma segments_text_boundary (segs : list (channel_name * jsstring)) :
  segments_text segs = []
  \/ exists t, segments_text segs = CHANNEL_AHEAD ++ t.
Proof.
  destruct segs as [|[x body] rest]; [left; reflexivity|].
  right. simpl segments_text.
  exists (skipn 10 (channel_marker x) ++ body ++ segments_text rest).
  destruct x; reflexivity.
Qed.

(** The section of a channel in a response made of segments is the
    trimmed body of the first segment of the channel. *)
Lemma section_segments (ch : channel_name)
    (segs : list (channel_name * jsstring)) :
  bodies_ok segs = true ->
  forall pre,
    occurs CHANNEL_AHEAD pre = false ->
    section (pre ++ segments_text segs) ch
    = option_map trim (first_body ch segs).
Proof.
  induction segs as [|[x body] rest IH]; intros Hok pre Hpre;
    rewrite section_spec.
  - simpl segments_text. rewrite app_nil_r. simpl first_body.
    change (channel_marker ch)
      with (CHANNEL_AHEAD ++ skipn 10 (channel_marker ch)).
    rewrite after_first_prefix_absent; [reflexivity|].
    apply occurs_false. exact Hpre.
  - simpl in Hok. apply andb_true_iff in Hok as [Hb Hrest].
    apply negb_true_iff in Hb. simpl snd in Hb.
    rewrite marker_after_boundary.
    change (segments_text ((x, body) :: rest))
      with (channel_marker x ++ body ++ segments_text rest).
    assert (Hfrom : from_first CHANNEL_AHEAD
                      (pre ++ channel_marker x ++ body ++ segments_text rest)
                    = channel_marker x ++ body ++ segments_text rest).
    { apply (@from_first_ends CHANNEL_AHEAD pre
               (skipn 10 (channel_marker x) ++ body ++ segments_text rest)).
      apply absent_ends_first; [reflexivity | exact Hpre]. }
    rewrite Hfrom. clear Hfrom.
    simpl first_body. destruct (channel_name_eqb ch x) eqn:Ex.
    + apply channel_name_eqb_eq in Ex. subst x.
      rewrite after_first_eq, starts_with_app. simpl option_map.
      rewrite before_body;
        [reflexivity | exact Hb | apply segments_text_boundary].
    + rewrite other_marker_after
        by (intros ->; destruct x; discriminate).
      rewrite <- section_spec. apply IH; assumption.
Qed.

Section SegmentResponses.

Variable J : Type.
Variable JSON_parse : jsstring -> option J.

(** X1: in a response made of channel segments (a marker and a body
    each) after some leading text, where neither the leading text nor a
    body holds a channel boundary, [parseHarmony] gives every channel
    the trimmed body of its first segment, and no text to a channel
    without segment; later segments of the same channel are ignored.
    [parseHarmonyResponse] gives the same channels whenever it
    returns. *)
Theorem channels_of_segments (pre : jsstring)
    (segs : list (channel_name * jsstring)) :
  occurs CHANNEL_AHEAD pre = false ->
  bodies_ok segs = true ->
  (exists p,
     parseHarmony JSON_parse (pre ++ segments_text segs) = Some p
     /\ forall ch,
          channel_field ch p = option_map trim (first_body ch segs))
  /\ (forall p' ch,
        parseHarmonyResponse JSON_parse (pre ++ segments_text segs)
        = Some (Ok p') ->
        channel_field ch p' = option_map trim (first_body ch segs)).
Proof.
  intros Hpre Hok. split.
  - destruct (parseHarmony_total JSON_parse (pre ++ segments_text segs))
      as [p Hp].
    exists p. split; [exact Hp|]. intros ch.
    rewrite (parseHarmony_channel _ _ ch Hp).
    apply section_segments; assumption.
  - intros p' ch Hp'.
    rewrite (parseHarmonyResponse_channel _ _ ch Hp').
    apply section_segments; assumption.
Qed.

End SegmentResponses.

Lemma channels_of_segments_witness :
  occurs CHANNEL_AHEAD (lit "noise") = false
  /\ bodies_ok [(analysis_ch, lit " think "); (final_ch, lit "done");
                (analysis_ch, lit "again")] = true
  /\ (exists p,
        parseHarmony JSONRef.parse
          (lit "noise"
             ++ segments_text [(analysis_ch, lit " think ");
                               (final_ch, lit "done");
                               (analysis_ch, lit "again")]) = Some p
        /\ forall ch,
             channel_field ch p
             = option_map trim
                 (first_body ch [(analysis_ch, lit " think ");
                                 (final_ch, lit "done");
                                 (analysis_ch, lit "again")]))
  /\ (forall p' ch,
        parseHarmonyResponse JSONRef.parse
          (lit "noise"
             ++ segments_text [(analysis_ch, lit " think ");
                               (final_ch, lit "done");
                               (analysis_ch, lit "again")])
        = Some (Ok p') ->
        channel_field ch p'
        = option_map trim
            (first_body ch [(analysis_ch, lit " think ");
                            (final_ch, lit "done");
                            (analysis_ch, lit "again")])).
Proof.
  split; [reflexivity|]. split; [reflexivity|].
  apply (@channels_of_segments _ JSONRef.parse (lit "noise")
           [(analysis_ch, lit " think "); (final_ch, lit "done");
            (analysis_ch, lit "again")]); reflexivity.
Defined.

(** The response of the validation script, and its first test. *)
Example validation_script :
  parseHarmonyResponse JSONRef.parse
    (lit "<|channel|>analysis<|end|>Thinking about this...
<|channel|>final<|end|>Here's the answer")
  = Some (Ok {| analysis := Some (lit "Thinking about this...");
                commentary := None;
                final := Some (lit "Here's the answer");
                toolCalls := None |})
  /\ occurs (lit "<|start|><|message|>user<|end|>Hello world")
       (HarmonyEncoder.renderMessage (lit "user") (lit "Hello world") None)
     = true.
Proof. split; vm_compute; reflexivity. Qed.

(** ** Conversations of assistant turns *)

Lemma carried_text (t : channel_name * jsstring)
    (turns : list (channel_name * jsstring)) :
  encodeHarmonyConversation
    (map (fun t => assistant_turn (fst t) (snd t)) (t :: turns))
  = ASSISTANT_HEAD ++ segments_text (carried (t :: turns)).
Proof.
  revert t. induction turns as [|u turns IH]; intros [ch c].
  - simpl carried. simpl segments_text. rewrite app_nil_r.
    destruct ch; reflexivity.
  - change (carried ((ch, c) :: u :: turns))
      with ((ch, c ++ NL ++ ASSISTANT_HEAD) :: carried (u :: turns)).
    change (segments_text
              ((ch, c ++ NL ++ ASSISTANT_HEAD) :: carried (u :: turns)))
      with (channel_marker ch ++ (c ++ NL ++ ASSISTANT_HEAD)
              ++ segments_text (carried (u :: turns))).
    specialize (IH u). unfold encodeHarmonyConversation in *.
    set (g := fun t : channel_name * jsstring =>
                assistant_turn (fst t) (snd t)) in *.
    set (r := fun m : message =>
                renderHarmonyMessage (role m) (content m) (channel m)) in *.
    change (map r (map g ((ch, c) :: u :: turns)))
      with (r (g (ch, c)) :: map r (map g (u :: turns))).
    rewrite join_cons by (simpl; discriminate).
    rewrite IH. rewrite <- !app_assoc. destruct ch; reflexivity.
Qed.

Lemma carried_ok (turns : list (channel_name * jsstring)) :
  bodies_ok turns = true -> bodies_ok (carried turns) = true.
Proof.
  induction turns as [|[ch c] turns IH]; [trivial|].
  intros H.
  change (negb (occurs CHANNEL_AHEAD c) && bodies_ok turns = true) in H.
  apply andb_true_iff in H as [Hc Ht].
  destruct turns as [|u turns].
  - change (negb (occurs CHANNEL_AHEAD c) && true = true).
    rewrite Hc. reflexivity.
  - change (negb (occurs CHANNEL_AHEAD (c ++ NL ++ ASSISTANT_HEAD))
            && bodies_ok (carried (u :: turns)) = true).
    rewrite (IH Ht), andb_true_r.
    apply negb_true_iff. apply negb_true_iff in Hc.
    apply (@occurs_barrier CHANNEL_AHEAD c ASSISTANT_HEAD 10%N);
      [reflexivity | exact Hc | reflexivity].
Qed.

Section Conversations.

Variable J : Type.
Variable JSON_parse : jsstring -> option J.

(** X2: when a conversation of assistant turns whose contents hold no
    channel boundary is encoded and parsed back, a channel gets the
    content of its first turn; unless that turn is the last of the
    conversation, the content comes back followed by the newline that
    joins the turns and the header of the next turn (start token,
    message token and role), since nothing on the wire closes a
    content. *)
Theorem conversation_round_trip (turns : list (channel_name * jsstring)) :
  bodies_ok turns = true ->
  exists p,
    parseHarmony JSON_parse
      (encodeHarmonyConversation
         (map (fun t => assistant_turn (fst t) (snd t)) turns)) = Some p
    /\ forall ch,
         channel_field ch p = option_map trim (first_body ch (carried turns)).
Proof.
  intros Hok.
  destruct (parseHarmony_total JSON_parse
              (encodeHarmonyConversation
                 (map (fun t => assistant_turn (fst t) (snd t)) turns)))
    as [p Hp].
  exists p. split; [exact Hp|]. intros ch.
  rewrite (parseHarmony_channel _ _ ch Hp).
  destruct turns as [|t turns]; [destruct ch; reflexivity|].
  rewrite carried_text. apply section_segments;
    [apply carried_ok; exact Hok | reflexivity].
Qed.

End Conversations.

Lemma conversation_round_trip_witness :
  bodies_ok [(analysis_ch, lit "plan"); (final_ch, lit "answer")] = true
  /\ exists p,
       parseHarmony JSONRef.parse
         (encodeHarmonyConversation
            (map (fun t => assistant_turn (fst t) (snd t))
               [(analysis_ch, lit "plan"); (final_ch, lit "answer")]))
       = Some p
       /\ forall ch,
            channel_field ch p
            = option_map trim
                (first_body ch
                   (carried [(analysis_ch, lit "plan");
                             (final_ch, lit "answer")])).
Proof.
  split; [reflexivity|].
  apply (@conversation_round_trip _ JSONRef.parse
           [(analysis_ch, lit "plan"); (final_ch, lit "answer")]).
  reflexivity.
Defined.

(** The header of the second turn comes back in the first channel. *)
Example two_turns_leak :
  parseHarmony JSONRef.parse
    (encodeHarmonyConversation
       [assistant_turn analysis_ch (lit "plan");
        assistant_turn final_ch (lit "answer")])
  = Some {| analysis := Some (lit "plan
<|start|><|message|>assistant");
            commentary := None;
            final := Some (lit "answer");
            toolCalls := None |}.
Proof. vm_compute. reflexivity. Qed.

(** ** What a match of the tool-call pattern captures *)

Lemma lazy_star_accepted (R : Type) (c : cls) (k : jsstring -> option R)
    (s : jsstring) (r : R) :
  lazy_star c k s = Some r ->
  exists p s',
    s = p ++ s' /\ forallb (cls_accepts c) p = true /\ k s' = Some r.
Proof.
  induction s as [|x s IH]; rewrite lazy_star_eq.
  - destruct (k []) eqn:E; [|discriminate].
    intros H. exists [], []. repeat split. congruence.
  - destruct (k (x :: s)) eqn:E.
    + intros H. exists [], (x :: s). repeat split. congruence.
    + destruct (cls_accepts c x) eqn:Ex; [|discriminate].
      intros H. destruct (IH H) as (p & s' & -> & Hp & Hk).
      exists (x :: p), s'. repeat split; [|exact Hk].
      simpl. rewrite Ex. exact Hp.
Qed.

Lemma lit_then_found (R : Type) (w : jsstring)
    (K : jsstring -> jsstring -> option R) (s : jsstring) (r : R) :
  lit_then w K s = Some r -> exists s'', s = w ++ s'' /\ K s s'' = Some r.
Proof.
  unfold lit_then. destruct (starts_with w s) as [s''|] eqn:E; [|discriminate].
  intros H. exists s''. split; [exact (starts_with_inv _ _ E) | exact H].
Qed.

Lemma close_stage_captures (caps : captures) (s rest : jsstring)
    (m : captures) :
  close_stage caps s = Some (rest, m) -> m = caps.
Proof.
  unfold close_stage. intros H.
  apply lazy_star_found in H as (p & s' & _ & H).
  apply lit_then_found in H as (s'' & _ & H). congruence.
Qed.

Lemma payload_stage_captures (caps : captures) (s rest : jsstring)
    (m : captures) :
  payload_stage caps s = Some (rest, m) -> exists pl, m = (2, pl) :: caps.
Proof.
  unfold payload_stage. intros H.
  apply lazy_star_found in H as (p & s' & _ & H).
  apply lit_then_found in H as (s'' & _ & H).
  apply close_stage_captures in H. eauto.
Qed.

Lemma params_stage_captures (caps : captures) (s rest : jsstring)
    (m : captures) :
  params_stage caps s = Some (rest, m) -> exists pl, m = (2, pl) :: caps.
Proof.
  unfold params_stage. intros H.
  apply lazy_star_found in H as (p & s' & _ & H).
  apply lit_then_found in H as (s'' & _ & H).
  apply payload_stage_captures in H. exact H.
Qed.

Lemma name_stage_captures (caps : captures) (s rest : jsstring)
    (m : captures) :
  name_stage caps s = Some (rest, m) ->
  exists n pl,
    m = (2, pl) :: (1, n) :: caps /\ forallb (cls_accepts ClsDot) n = true.
Proof.
  unfold name_stage. intros H.
  apply lazy_star_accepted in H as (p & s' & -> & Hp & H).
  apply lit_then_found in H as (s'' & _ & H).
  rewrite firstn_consumed in H.
  apply params_stage_captures in H as [pl ->]. eauto.
Qed.

(** Every match of the tool-call pattern has both groups, and its
    first group holds no line terminator. *)
Lemma tool_search_captures (s rest : jsstring) (m : captures) :
  search tool_call_re s = Some (rest, m) ->
  exists n pl,
    m = [(2, pl); (1, n)] /\ forallb (cls_accepts ClsDot) n = true.
Proof.
  intros H. apply search_found in H as (p & s' & _ & H).
  rewrite tool_match_stages in H.
  destruct (starts_with TOOL_CALL_OPEN s') as [s1|]; [|discriminate].
  unfold open_stage in H.
  apply lazy_star_found in H as (p1 & s2 & _ & H).
  apply lit_then_found in H as (s3 & _ & H).
  apply name_stage_captures in H. exact H.
Qed.

(** ** Trimming *)

Lemma trimStart_suffix (s : jsstring) : exists p, s = p ++ trimStart s.
Proof.
  induction s as [|c s [p IH]]; [exists []; reflexivity|].
  simpl. destruct (is_trimmable c).
  - exists (c :: p). simpl. congruence.
  - exists []. reflexivity.
Qed.

Lemma trimStart_head (s : jsstring) :
  match trimStart s with
  | [] => True
  | c :: _ => is_trimmable c = false
  end.
Proof.
  induction s as [|c s IH]; [exact I|].
  simpl. destruct (is_trimmable c) eqn:E; [exact IH | exact E].
Qed.

(** The trimmed string as a part of the string. *)
Lemma trim_infix (s : jsstring) : exists p q, s = p ++ trim s ++ q.
Proof.
  unfold trim. destruct (trimStart_suffix s) as [p Hp].
  destruct (trimStart_suffix (rev (trimStart s))) as [q Hq].
  exists p, (rev q). rewrite <- rev_app_distr, <- Hq, rev_involutive.
  exact Hp.
Qed.

Lemma trim_idempotent (s : jsstring) : trim (trim s) = trim s.
Proof.
  unfold trim.
  destruct (trimStart_suffix (rev (trimStart s))) as [q Hq].
  pose proof (trimStart_head s) as Ha.
  pose proof (trimStart_head (rev (trimStart s))) as Hb.
  set (a := trimStart s) in *. set (b := trimStart (rev a)) in *.
  destruct b as [|x b'] eqn:Eb; [reflexivity|].
  assert (Hrev : a = rev (x :: b') ++ rev q).
  { rewrite <- rev_app_distr, <- Hq, rev_involutive. reflexivity. }
  assert (Hfix : trimStart (rev (x :: b')) = rev (x :: b')).
  { destruct (rev (x :: b')) as [|y t] eqn:Er.
    - reflexivity.
    - rewrite Hrev in Ha. simpl in Ha. simpl. rewrite Ha. reflexivity. }
  rewrite Hfix, rev_involutive. simpl. rewrite Hb. reflexivity.
Qed.

Lemma forallb_trim (P : jschar -> bool) (s : jsstring) :
  forallb P s = true -> forallb P (trim s) = true.
Proof.
  destruct (trim_infix s) as (p & q & H). intros Hs.
  rewrite H in Hs. rewrite !forallb_app in Hs.
  apply andb_true_iff in Hs as [_ Hs].
  apply andb_true_iff in Hs as [Hs _]. exact Hs.
Qed.

Lemma occurs_trim (w s : jsstring) :
  occurs w s = false -> occurs w (trim s) = false.
Proof.
  destruct (trim_infix s) as (p & q & H). intros Hs.
  rewrite H in Hs. apply occurs_suffix in Hs. apply occurs_prefix in Hs.
  exact Hs.
Qed.

(** A section is trimmed and holds no channel boundary. *)
Lemma section_tidy (text : jsstring) (ch : channel_name) (v : jsstring) :
  section text ch = Some v ->
  trim v = v /\ occurs CHANNEL_AHEAD v = false.
Proof.
  rewrite section_spec.
  destruct (after_first (channel_marker ch) text) as [s3|]; [|discriminate].
  simpl. intros H. injection H as <-. split.
  - apply trim_idempotent.
  - apply occurs_trim. apply before_no_occurrence. discriminate.
Qed.

(** ** The two batch parsers, one against the other *)

Section ParserRelation.

Variable J : Type.
Variable JSON_parse : jsstring -> option J.

Lemma collect_relation (fuel : nat) :
  forall (s : jsstring) (acc : list (ToolCall J)),
    match collect_unguarded JSON_parse fuel s acc with
    | Some (Ok calls) => collect_guarded JSON_parse fuel s acc = Some calls
    | Some (Throw e) => e = SyntaxError
    | None => True
    end.
Proof.
  induction fuel as [|fuel IH]; intros s acc; [exact I|].
  simpl. unfold exec.
  destruct (search tool_call_re s) as [[rest m]|] eqn:E; [|reflexivity].
  destruct (tool_search_captures _ E) as (n & pl & -> & _).
  unfold push_unguarded, push_guarded. simpl capture. cbv iota beta.
  destruct (JSON_parse (trim pl)) as [v|]; [apply IH | reflexivity].
Qed.

Lemma parseHarmonyResponse_ok (text : jsstring) (p : Parsed J) :
  parseHarmonyResponse JSON_parse text = Some (Ok p) ->
  parseHarmony JSON_parse text = Some p.
Proof.
  unfold parseHarmonyResponse, parseHarmony.
  pose proof (collect_relation (S (List.length text)) text []) as H.
  destruct (collect_unguarded JSON_parse (S (List.length text)) text [])
    as [[calls|e]|]; try discriminate.
  rewrite H. intros Hp. injection Hp as <-. reflexivity.
Qed.

(** X3: on every text [parseHarmony] returns, and [parseHarmonyResponse]
    either returns the very same result or throws a [SyntaxError]; it
    never throws a [TypeError], because a match of the tool-call
    pattern always has both groups. *)
Theorem parsers_differ_only_by_throwing (text : jsstring) :
  exists p,
    parseHarmony JSON_parse text = Some p
    /\ (parseHarmonyResponse JSON_parse text = Some (Ok p)
        \/ parseHarmonyResponse JSON_parse text = Some (Throw SyntaxError)).
Proof.
  destruct (parseHarmony_total JSON_parse text) as [p Hp].
  exists p. split; [exact Hp|].
  destruct (parseHarmonyResponse_total JSON_parse text) as [[q|e] Hq].
  - left. pose proof (parseHarmonyResponse_ok _ Hq) as Hq'.
    rewrite Hp in Hq'. injection Hq' as ->. exact Hq.
  - right. rewrite Hq. unfold parseHarmonyResponse in Hq.
    pose proof (collect_relation (S (List.length text)) text []) as H.
    destruct (collect_unguarded JSON_parse (S (List.length text)) text [])
      as [[calls|e']|]; try discriminate.
    injection Hq as <-. rewrite H. reflexivity.
Qed.

Lemma collect_guarded_names (fuel : nat) :
  forall (s : jsstring) (acc calls : list (ToolCall J)),
    Forall (fun c => trim (tc_name c) = tc_name c
                     /\ forallb (fun u => negb (is_line_terminator u))
                          (tc_name c) = true) acc ->
    collect_guarded JSON_parse fuel s acc = Some calls ->
    Forall (fun c => trim (tc_name c) = tc_name c
                     /\ forallb (fun u => negb (is_line_terminator u))
                          (tc_name c) = true) calls.
Proof.
  induction fuel as [|fuel IH]; intros s acc calls Hacc; [discriminate|].
  simpl. unfold exec.
  destruct (search tool_call_re s) as [[rest m]|] eqn:E.
  - destruct (tool_search_captures _ E) as (n & pl & -> & Hn).
    apply IH. unfold push_guarded. simpl capture. cbv iota beta.
    destruct (JSON_parse (trim pl)) as [v|]; [|exact Hacc].
    apply Forall_app. split; [exact Hacc|].
    constructor; [|constructor]. simpl. split.
    + apply trim_idempotent.
    + apply forallb_trim. exact Hn.
  - intros H. injection H as <-. exact Hacc.
Qed.

(** X4: whatever either parser returns is tidy: a channel text is
    trimmed and holds no channel boundary; the list of tool calls is
    absent rather than empty, and a tool name is trimmed and holds no
    line terminator. *)
Theorem parsed_text_is_tidy (text : jsstring) (p : Parsed J) :
  parseHarmony JSON_parse text = Some p
  \/ parseHarmonyResponse JSON_parse text = Some (Ok p) ->
  (forall ch v,
     channel_field ch p = Some v ->
     trim v = v /\ occurs CHANNEL_AHEAD v = false)
  /\ (forall calls,
        toolCalls p = Some calls ->
        calls <> []
        /\ Forall (fun c => trim (tc_name c) = tc_name c
                            /\ forallb (fun u => negb (is_line_terminator u))
                                 (tc_name c) = true) calls).
Proof.
  intros H.
  assert (Hp : parseHarmony JSON_parse text = Some p).
  { destruct H as [H|H]; [exact H | exact (parseHarmonyResponse_ok _ H)]. }
  clear H. split.
  - intros ch v Hv. rewrite (parseHarmony_channel _ _ ch Hp) in Hv.
    exact (section_tidy _ _ Hv).
  - intros calls Hc. unfold parseHarmony in Hp.
    destruct (collect_guarded JSON_parse (S (List.length text)) text [])
      as [l|] eqn:El; [|discriminate].
    injection Hp as <-. simpl in Hc.
    destruct l as [|c l]; [discriminate|]. injection Hc as <-.
    split; [discriminate|].
    exact (collect_guarded_names _ _ (Forall_nil _) El).
Qed.

End ParserRelation.

Lemma parsed_text_is_tidy_witness :
  (parseHarmony JSONRef.parse (lit "<|channel|>final<|end|> ok ")
   = Some {| analysis := None; commentary := None;
             final := Some (lit "ok"); toolCalls := None |}
   \/ parseHarmonyResponse JSONRef.parse (lit "<|channel|>final<|end|> ok ")
      = Some (Ok {| analysis := None; commentary := None;
                    final := Some (lit "ok"); toolCalls := None |}))
  /\ (forall ch v,
        @channel_field JSONRef.json ch
          {| analysis := None; commentary := None;
             final := Some (lit "ok"); toolCalls := None |} = Some v ->
        trim v = v /\ occurs CHANNEL_AHEAD v = false)
  /\ (forall calls : list (ToolCall JSONRef.json),
        @toolCalls JSONRef.json
          {| analysis := None; commentary := None;
             final := Some (lit "ok"); toolCalls := None |} = Some calls ->
        calls <> []
        /\ Forall (fun c => trim (tc_name c) = tc_name c
                            /\ forallb (fun u => negb (is_line_terminator u))
                                 (tc_name c) = true) calls).
Proof.
  split; [left; vm_compute; reflexivity|].
  apply (@parsed_text_is_tidy _ JSONRef.parse
           (lit "<|channel|>final<|end|> ok ")).
  left. vm_compute. reflexivity.
Defined.

(** ** The renderers of a message, one against the other *)

(** X5: the rendering the Improvement Guide quotes from the Python
    library, the renderer of the Prompt Modification Guide and
    [HarmonyEncoder.renderMessage] give the same wire text for every
    role, content and channel, the absent and the empty channel
    included. *)
Theorem three_renderers_agree (role content : jsstring)
    (channel : option jsstring) :
  render_harmony_message role content channel
  = renderHarmonyMessage role content channel
  /\ HarmonyEncoder.renderMessage role content channel
     = render_harmony_message role content channel.
Proof.
  assert (H : render_harmony_message role content channel
              = renderHarmonyMessage role content channel).
  { unfold render_harmony_message, renderHarmonyMessage.
    change TOKEN_START with TOKENS.START.
    change TOKEN_MESSAGE with TOKENS.MESSAGE.
    change TOKEN_CHANNEL with TOKENS.CHANNEL.
    change TOKEN_END with TOKENS.END.
    destruct (truthy channel); cbn [app List.concat];
      rewrite ?app_nil_r; reflexivity. }
  split; [exact H|]. rewrite H. apply renderMessage_agrees.
Qed.

(** ** The encoders of a conversation, one against the other *)

Lemma rendered_length (role content : jsstring) (channel : option jsstring) :
  List.length (renderHarmonyMessage role content channel)
  = 27 + List.length role + List.length content
    + (if truthy channel then 11 + List.length (or_empty channel) else 0).
Proof.
  unfold renderHarmonyMessage. rewrite !length_app.
  change (List.length TOKENS.START) with 9.
  change (List.length TOKENS.MESSAGE) with 11.
  change (List.length TOKENS.END) with 7.
  destruct (truthy channel).
  - rewrite length_app. change (List.length TOKENS.CHANNEL) with 11. lia.
  - simpl List.length. lia.
Qed.

Lemma convertMessage_plain (m : message) :
  HarmonyEncoder.convertMessage m
  = renderHarmonyMessage (role m) (content m) (channel m)
  <-> plain_turn m = true.
Proof.
  unfold HarmonyEncoder.convertMessage, plain_turn.
  rewrite !renderMessage_agrees.
  destruct (jsstring_eqb (role m) (lit "system")) eqn:Es.
  - apply jsstring_eqb_eq in Es. rewrite Es.
    change (jsstring_eqb (lit "system") (lit "assistant")) with false.
    rewrite orb_false_l, orb_true_l, andb_true_l.
    split.
    + intros H. apply (f_equal (@List.length jschar)) in H.
      rewrite !rendered_length in H. simpl truthy in H.
      destruct (truthy (channel m)); [lia | reflexivity].
    + intros H. apply negb_true_iff in H.
      unfold renderHarmonyMessage. rewrite H. reflexivity.
  - destruct (jsstring_eqb (role m) (lit "user")) eqn:Eu.
    + apply jsstring_eqb_eq in Eu. rewrite Eu.
      change (jsstring_eqb (lit "user") (lit "assistant")) with false.
      rewrite !orb_false_l, andb_true_l.
      split.
      * intros H. apply (f_equal (@List.length jschar)) in H.
        rewrite !rendered_length in H. simpl truthy in H.
        destruct (truthy (channel m)); [lia | reflexivity].
      * intros H. apply negb_true_iff in H.
        unfold renderHarmonyMessage. rewrite H. reflexivity.
    + destruct (jsstring_eqb (role m) (lit "assistant")) eqn:Ea.
      * apply jsstring_eqb_eq in Ea. rewrite Ea. split; reflexivity.
      * rewrite !orb_false_l, andb_false_l. split; [|discriminate].
        intros H. apply (f_equal (@List.length jschar)) in H.
        rewrite rendered_length in H. simpl in H. lia.
Qed.

(** X6: [convertToHarmonyFormat] renders a turn as
    [encodeHarmonyConversation] does exactly when the turn is an
    assistant turn, or a system or user turn without channel: it drops
    the channel of a system or user turn and renders a turn of any other
    role as the empty string.  On conversations of such turns the two
    encoders give the same wire text. *)
Theorem encoders_agree_on_plain_turns (messages : list message) :
  forallb plain_turn messages = true ->
  HarmonyEncoder.convertToHarmonyFormat messages
  = encodeHarmonyConversation messages
  /\ forall m,
       plain_turn m = false ->
       HarmonyEncoder.convertToHarmonyFormat [m]
       <> encodeHarmonyConversation [m].
Proof.
  intros H. split.
  - unfold HarmonyEncoder.convertToHarmonyFormat, encodeHarmonyConversation.
    f_equal. apply map_ext_in. intros m Hm.
    apply convertMessage_plain.
    rewrite forallb_forall in H. exact (H m Hm).
  - intros m Hm E.
    unfold HarmonyEncoder.convertToHarmonyFormat, encodeHarmonyConversation
      in E.
    simpl in E. apply convertMessage_plain in E. congruence.
Qed.

Lemma encoders_agree_on_plain_turns_witness :
  forallb plain_turn
    [ {| role := lit "system"; content := lit "be brief"; channel := None |};
      {| role := lit "user"; content := lit "hi"; channel := Some [] |};
      assistant_turn final_ch (lit "hello") ] = true
  /\ HarmonyEncoder.convertToHarmonyFormat
       [ {| role := lit "system"; content := lit "be brief";
            channel := None |};
         {| role := lit "user"; content := lit "hi"; channel := Some [] |};
         assistant_turn final_ch (lit "hello") ]
     = encodeHarmonyConversation
         [ {| role := lit "system"; content := lit "be brief";
              channel := None |};
           {| role := lit "user"; content := lit "hi"; channel := Some [] |};
           assistant_turn final_ch (lit "hello") ]
  /\ forall m,
       plain_turn m = false ->
       HarmonyEncoder.convertToHarmonyFormat [m]
       <> encodeHarmonyConversation [m].
Proof.
  split; [reflexivity|].
  apply (encoders_agree_on_plain_turns
           [ {| role := lit "system"; content := lit "be brief";
                channel := None |};
             {| role := lit "user"; content := lit "hi"; channel := Some [] |};
             assistant_turn final_ch (lit "hello") ]).
  reflexivity.
Defined.

(** A user turn with a channel, and a turn of a role the second
    encoder does not know. *)
Example encoders_disagree :
  HarmonyEncoder.convertToHarmonyFormat
    [ {| role := lit "user"; content := lit "hi";
         channel := Some (lit "final") |} ]
  = lit "<|start|><|message|>user<|end|>hi"
  /\ encodeHarmonyConversation
       [ {| role := lit "user"; content := lit "hi";
            channel := Some (lit "final") |} ]
     = lit "<|start|><|message|>user<|channel|>final<|end|>hi"
  /\ HarmonyEncoder.convertToHarmonyFormat
       [ {| role := lit "tool"; content := lit "42"; channel := None |} ]
     = []
  /\ encodeHarmonyConversation
       [ {| role := lit "tool"; content := lit "42"; channel := None |} ]
     = lit "<|start|><|message|>tool<|end|>42".
Proof. repeat split. Qed.

(** ** Conversations put together *)

Lemma join_app (sep : jsstring) (a b : list jsstring) :
  a <> [] -> b <> [] ->
  join sep (a ++ b) = join sep a ++ sep ++ join sep b.
Proof.
  intros Ha Hb. induction a as [|x a IH]; [congruence|].
  destruct a as [|y a].
  - simpl app. rewrite join_cons by exact Hb. reflexivity.
  - rewrite <- app_comm_cons.
    rewrite join_cons by (rewrite <- app_comm_cons; discriminate).
    rewrite IH by discriminate.
    rewrite (@join_cons sep x (y :: a)) by discriminate.
    rewrite <- !app_assoc. reflexivity.
Qed.

(** X7: both encoders render a conversation made of two nonempty parts
    as the wire texts of the parts with one newline between them, so a
    history can be encoded part by part. *)
Theorem conversations_concatenate (a b : list message) :
  a <> [] -> b <> [] ->
  encodeHarmonyConversation (a ++ b)
  = encodeHarmonyConversation a ++ NL ++ encodeHarmonyConversation b
  /\ HarmonyEncoder.convertToHarmonyFormat (a ++ b)
     = HarmonyEncoder.convertToHarmonyFormat a ++ NL
         ++ HarmonyEncoder.convertToHarmonyFormat b.
Proof.
  intros Ha Hb.
  unfold encodeHarmonyConversation, HarmonyEncoder.convertToHarmonyFormat.
  rewrite !map_app.
  split; apply join_app; destruct a, b; simpl; congruence.
Qed.

Lemma conversations_concatenate_witness :
  [assistant_turn analysis_ch (lit "plan")] <> []
  /\ [assistant_turn final_ch (lit "answer")] <> []
  /\ encodeHarmonyConversation
       ([assistant_turn analysis_ch (lit "plan")]
          ++ [assistant_turn final_ch (lit "answer")])
     = encodeHarmonyConversation [assistant_turn analysis_ch (lit "plan")]
         ++ NL
         ++ encodeHarmonyConversation [assistant_turn final_ch (lit "answer")]
  /\ HarmonyEncoder.convertToHarmonyFormat
       ([assistant_turn analysis_ch (lit "plan")]
          ++ [assistant_turn final_ch (lit "answer")])
     = HarmonyEncoder.convertToHarmonyFormat
         [assistant_turn analysis_ch (lit "plan")]
         ++ NL
         ++ HarmonyEncoder.convertToHarmonyFormat
              [assistant_turn final_ch (lit "answer")].
Proof.
  split; [intros H; discriminate H|]. split; [intros H; discriminate H|].
  apply (@conversations_concatenate
           [assistant_turn analysis_ch (lit "plan")]
           [assistant_turn final_ch (lit "answer")]);
    intros H; discriminate H.
Defined.

(** ** Declarations the namespace renderers throw on *)

Lemma map_throwing_all {A B : Type} (f : A -> outcome B) (ok : A -> bool)
    (l : list A) :
  (forall a, match f a with
             | Ok _ => ok a = true
             | Throw e => e = TypeError /\ ok a = false
             end) ->
  match map_throwing f l with
  | Ok _ => forallb ok l = true
  | Throw e => e = TypeError /\ forallb ok l = false
  end.
Proof.
  intros Hf. induction l as [|a l IH]; [reflexivity|].
  simpl. pose proof (Hf a) as Ha.
  destruct (f a) as [b|e]; simpl.
  - rewrite Ha. destruct (map_throwing f l) as [bs|e]; simpl; exact IH.
  - destruct Ha as [-> ->]. split; reflexivity.
Qed.

(** X8: [toolsToTypeScriptNamespace] throws, and then a [TypeError],
    exactly when some declaration has no [function];
    [convertToolsToTypeScript] exactly when some declaration has no
    [function] or a [function] without [parameters].  So the first
    renders every catalog the second renders. *)
Theorem renderers_throw_on_missing_members (tools : list tool) :
  match toolsToTypeScriptNamespace tools with
  | Ok _ => forallb has_function tools = true
  | Throw e => e = TypeError /\ forallb has_function tools = false
  end
  /\ match convertToolsToTypeScript tools with
     | Ok _ => forallb has_parameters tools = true
     | Throw e => e = TypeError /\ forallb has_parameters tools = false
     end
  /\ match convertToolsToTypeScript tools with
     | Ok _ => exists out, toolsToTypeScriptNamespace tools = Ok out
     | Throw _ => True
     end.
Proof.
  assert (H1 : match toolsToTypeScriptNamespace tools with
               | Ok _ => forallb has_function tools = true
               | Throw e => e = TypeError /\ forallb has_function tools = false
               end).
  { unfold toolsToTypeScriptNamespace.
    pose proof (@map_throwing_all _ _ namespace_block has_function tools) as H.
    destruct (map_throwing namespace_block tools); simpl; apply H;
      intros t; unfold namespace_block, has_function;
      destruct (function t); auto. }
  assert (H2 : match convertToolsToTypeScript tools with
               | Ok _ => forallb has_parameters tools = true
               | Throw e =>
                   e = TypeError /\ forallb has_parameters tools = false
               end).
  { unfold convertToolsToTypeScript.
    pose proof (@map_throwing_all _ _ documented_namespace_block
                  has_parameters tools) as H.
    destruct (map_throwing documented_namespace_block tools); simpl; apply H;
      intros t; unfold documented_namespace_block, has_parameters;
      destruct (function t) as [fn|]; auto;
      destruct (parameters fn); auto. }
  split; [exact H1|]. split; [exact H2|].
  destruct (convertToolsToTypeScript tools) as [out|e]; [|exact I].
  destruct (toolsToTypeScriptNamespace tools) as [out'|e']; [eauto|].
  exfalso. destruct H1 as [_ H1].
  assert (Hall : forallb has_function tools = true).
  { rewrite forallb_forall in *. intros t Ht. specialize (H2 t Ht).
    unfold has_parameters in H2. unfold has_function.
    destruct (function t); [reflexivity | discriminate]. }
  congruence.
Qed.

(** A declaration without [parameters]: the first renderer gives an
    empty namespace, the second throws. *)
Example renderers_differ_without_parameters :
  toolsToTypeScriptNamespace
    [ {| function := Some {| fn_name := lit "now";
                            fn_description := None;
                            parameters := None |} |} ]
  = Ok (lit "namespace now {

}")
  /\ convertToolsToTypeScript
       [ {| function := Some {| fn_name := lit "now";
                               fn_description := None;
                               parameters := None |} |} ]
     = Throw TypeError.
Proof. split; reflexivity. Qed.

(** ** Texts without angle brackets *)

Lemma angle_free_app (a b : jsstring) :
  angle_free (a ++ b) = angle_free a && angle_free b.
Proof. apply forallb_app. Qed.

Lemma angle_free_join (sep : jsstring) (parts : list jsstring) :
  angle_free sep = true ->
  forallb angle_free parts = true ->
  angle_free (join sep parts) = true.
Proof.
  intros Hs. induction parts as [|p parts IH]; [reflexivity|].
  simpl forallb. intros H. apply andb_true_iff in H as [Hp Hps].
  destruct parts as [|q parts]; [exact Hp|].
  rewrite join_cons by discriminate.
  rewrite !angle_free_app, Hp, Hs, (IH Hps). reflexivity.
Qed.

(** A word that starts with [<] is not found in a text free of it, and
    is found behind such a text only where it is found in what
    follows. *)
Lemma angle_free_skipped (w a b : jsstring) :
  angle_free a = true ->
  after_first (60%N :: w) (a ++ b) = after_first (60%N :: w) b.
Proof.
  induction a as [|c a IH]; [reflexivity|].
  simpl angle_free. intros H. apply andb_true_iff in H as [Hc Ha].
  rewrite <- app_comm_cons, after_first_eq.
  replace (starts_with (60%N :: w) (c :: a ++ b)) with (@None jsstring).
  - apply IH. exact Ha.
  - change (starts_with (60%N :: w) (c :: a ++ b))
      with (if jschar_eqb 60%N c then starts_with w (a ++ b) else None).
    unfold jschar_eqb. rewrite N.eqb_sym.
    apply negb_true_iff in Hc. rewrite Hc. reflexivity.
Qed.

Lemma angle_free_absent (w a : jsstring) :
  angle_free a = true -> occurs (60%N :: w) a = false.
Proof.
  intros H. apply occurs_false.
  rewrite <- (app_nil_r a), (@angle_free_skipped w a [] H). reflexivity.
Qed.

Lemma property_line_angle_free (kv : jsstring * property) :
  property_angle_free kv = true -> angle_free (property_line kv) = true.
Proof.
  destruct kv as [k v]. unfold property_angle_free, property_line.
  simpl fst. simpl snd. intros H.
  apply andb_true_iff in H as [H Hd]. apply andb_true_iff in H as [Hk Ht].
  rewrite !angle_free_app, Hk, Ht, Hd. reflexivity.
Qed.

Lemma property_lines_angle_free (ps : list (jsstring * property)) :
  forallb property_angle_free ps = true ->
  angle_free (join NL (map property_line ps)) = true.
Proof.
  intros H. apply angle_free_join; [reflexivity|].
  rewrite forallb_forall in *. intros l Hl.
  apply in_map_iff in Hl as (kv & <- & Hkv).
  apply property_line_angle_free. exact (H kv Hkv).
Qed.

Lemma namespace_block_angle_free (t : tool) (s : jsstring) :
  tool_angle_free t = true ->
  namespace_block t = Ok s -> angle_free s = true.
Proof.
  unfold tool_angle_free, namespace_block. cbv zeta.
  destruct (function t) as [fn|]; [|discriminate].
  intros H Hs. injection Hs as <-.
  apply andb_true_iff in H as [H Hp]. apply andb_true_iff in H as [Hn Hd].
  change (angle_free
            (lit "namespace " ++ fn_name fn ++ lit " {" ++ NL
               ++ join NL (map property_line (properties_or_empty (Some fn)))
               ++ NL ++ lit "}") = true).
  rewrite !angle_free_app, Hn, (property_lines_angle_free _ Hp).
  reflexivity.
Qed.

Lemma documented_namespace_block_angle_free (t : tool) (s : jsstring) :
  tool_angle_free t = true ->
  documented_namespace_block t = Ok s -> angle_free s = true.
Proof.
  unfold tool_angle_free, documented_namespace_block, properties_or_empty.
  cbv zeta.
  destruct (function t) as [fn|]; [|discriminate].
  destruct (parameters fn) as [params|]; [|discriminate].
  intros H Hs. injection Hs as <-.
  apply andb_true_iff in H as [H Hp]. apply andb_true_iff in H as [Hn Hd].
  change (angle_free
            (lit "namespace " ++ fn_name fn ++ lit " {" ++ NL
               ++ lit "  /**" ++ NL
               ++ lit "   * " ++ or_empty (fn_description fn) ++ NL
               ++ lit "   */" ++ NL
               ++ join NL
                    (map property_line
                       (match properties params with
                        | Some p => p
                        | None => []
                        end))
               ++ NL ++ lit "}") = true).
  rewrite !angle_free_app, Hn, Hd, (property_lines_angle_free _ Hp).
  reflexivity.
Qed.

Lemma map_throwing_angle_free (f : tool -> outcome jsstring)
    (tools : list tool) (blocks : list jsstring) :
  (forall t s, tool_angle_free t = true -> f t = Ok s -> angle_free s = true) ->
  forallb tool_angle_free tools = true ->
  map_throwing f tools = Ok blocks ->
  forallb angle_free blocks = true.
Proof.
  intros Hf. revert blocks.
  induction tools as [|t tools IH]; intros blocks H Hb.
  - injection Hb as <-. reflexivity.
  - simpl in H. apply andb_true_iff in H as [Ht Hts].
    simpl in Hb. destruct (f t) as [s|] eqn:Es; [|discriminate].
    simpl in Hb. destruct (map_throwing f tools) as [bs|]; [|discriminate].
    injection Hb as <-. simpl.
    rewrite (Hf _ _ Ht Es), (IH bs Hts eq_refl). reflexivity.
Qed.

(** Both renderers give a namespace text free of [<] on a catalog free
    of it. *)
Lemma namespaces_angle_free (tools : list tool) (out : jsstring) :
  forallb tool_angle_free tools = true ->
  toolsToTypeScriptNamespace tools = Ok out
  \/ convertToolsToTypeScript tools = Ok out ->
  angle_free out = true.
Proof.
  intros H [Ho|Ho].
  - unfold toolsToTypeScriptNamespace in Ho.
    destruct (map_throwing namespace_block tools) as [bs|] eqn:E;
      [|discriminate].
    injection Ho as <-. apply angle_free_join; [reflexivity|].
    exact (@map_throwing_angle_free namespace_block tools bs
             namespace_block_angle_free H E).
  - unfold convertToolsToTypeScript in Ho.
    destruct (map_throwing documented_namespace_block tools) as [bs|] eqn:E;
      [|discriminate].
    injection Ho as <-. apply angle_free_join; [reflexivity|].
    exact (@map_throwing_angle_free documented_namespace_block tools bs
             documented_namespace_block_angle_free H E).
Qed.

(** ** System messages given to the parsers *)

Section SystemMessages.

Variable J : Type.
Variable JSON_parse : jsstring -> option J.

(** A text without channel boundary and without opening tag holds
    nothing for either parser. *)
Lemma nothing_to_parse (text : jsstring) :
  occurs CHANNEL_AHEAD text = false ->
  occurs TOOL_CALL_OPEN text = false ->
  parseHarmony JSON_parse text = Some (nothing_parsed J)
  /\ parseHarmonyResponse JSON_parse text = Some (Ok (nothing_parsed J)).
Proof.
  intros Hc Ht.
  assert (Hs : forall ch, section text ch = None).
  { intros ch.
    rewrite <- (app_nil_r text).
    exact (@section_segments ch [] eq_refl text Hc). }
  unfold parseHarmony, parseHarmonyResponse.
  simpl collect_guarded. simpl collect_unguarded. unfold exec.
  rewrite (tool_search_absent _ Ht), !Hs. split; reflexivity.
Qed.

(** X9: the system message [buildHarmonySystemMessage] builds from the
    namespace text of a catalog free of [<] (and the one it builds
    without argument) holds nothing for the parsers: no channel text
    and no tool call, although it names the three channels. *)
Theorem harmony_system_message_is_inert (tools : list tool)
    (ns : jsstring) :
  forallb tool_angle_free tools = true ->
  toolsToTypeScriptNamespace tools = Ok ns ->
  parseHarmony JSON_parse (buildHarmonySystemMessage (Some ns))
  = Some (nothing_parsed J)
  /\ parseHarmonyResponse JSON_parse (buildHarmonySystemMessage (Some ns))
     = Some (Ok (nothing_parsed J))
  /\ parseHarmony JSON_parse (buildHarmonySystemMessage None)
     = Some (nothing_parsed J).
Proof.
  intros H Hns.
  assert (Hfree : angle_free (buildHarmonySystemMessage (Some ns)) = true).
  { unfold buildHarmonySystemMessage. simpl or_empty.
    rewrite !angle_free_app, (namespaces_angle_free _ H (or_introl Hns)).
    reflexivity. }
  destruct (@nothing_to_parse (buildHarmonySystemMessage (Some ns)))
    as [H1 H2];
    [exact (angle_free_absent _ _ Hfree)
    | exact (angle_free_absent _ _ Hfree) |].
  split; [exact H1|]. split; [exact H2|].
  apply nothing_to_parse; reflexivity.
Qed.

End SystemMessages.

Lemma harmony_system_message_is_inert_witness :
  forallb tool_angle_free [query_tool] = true
  /\ toolsToTypeScriptNamespace [query_tool]
     = Ok (lit "namespace search {
  query: string; // The query
}")
  /\ parseHarmony JSONRef.parse
       (buildHarmonySystemMessage (Some (lit "namespace search {
  query: string; // The query
}")))
     = Some (nothing_parsed JSONRef.json)
  /\ parseHarmonyResponse JSONRef.parse
       (buildHarmonySystemMessage (Some (lit "namespace search {
  query: string; // The query
}")))
     = Some (Ok (nothing_parsed JSONRef.json))
  /\ parseHarmony JSONRef.parse (buildHarmonySystemMessage None)
     = Some (nothing_parsed JSONRef.json).
Proof.
  split; [reflexivity|]. split; [reflexivity|].
  apply (@harmony_system_message_is_inert _ JSONRef.parse [query_tool]);
    reflexivity.
Defined.

Section ShownTurn.

Variable J : Type.
Variable JSON_parse : jsstring -> option J.

(** X10: the system message [buildSystemMessage] builds from a catalog
    free of [<] is itself, for [parseHarmony], a response with a final
    answer and a tool call: the turn it shows the model comes back as
    the final channel, and the block in it as a call of
    [tool_name_here] whenever its payload decodes. *)
Theorem system_message_parses_as_a_turn (tools : list tool)
    (msg : jsstring) :
  forallb tool_angle_free tools = true ->
  buildSystemMessage tools = Ok msg ->
  parseHarmony JSON_parse msg
  = Some {| analysis := None;
            commentary := None;
            final := Some SHOWN_CONTENT;
            toolCalls :=
              option_map
                (fun v => [ {| tc_name := lit "tool_name_here";
                               tc_parameters := v |} ])
                (JSON_parse SHOWN_PAYLOAD) |}.
Proof.
  intros Hfree Hmsg. unfold buildSystemMessage in Hmsg.
  destruct (convertToolsToTypeScript tools) as [toolDefs|] eqn:E;
    [|discriminate].
  pose proof (namespaces_angle_free _ Hfree (or_intror E)) as Hdefs.
  assert (Hlead : angle_free (SYSTEM_HEAD ++ toolDefs ++ SYSTEM_USAGE) = true).
  { rewrite !angle_free_app, Hdefs. reflexivity. }
  set (lead := SYSTEM_HEAD ++ toolDefs ++ SYSTEM_USAGE) in *.
  assert (Emsg : msg = lead
                         ++ lit "<|start|><|message|>assistant<|channel|>final<|end|>"
                         ++ SHOWN_CONTENT).
  { simpl bind in Hmsg. injection Hmsg as <-. unfold lead.
    rewrite <- !app_assoc. reflexivity. }
  clear Hmsg.
  assert (Hs : forall ch,
             section msg ch
             = option_map trim (first_body ch [(final_ch, SHOWN_CONTENT)])).
  { intros ch.
    assert (Hc : occurs CHANNEL_AHEAD (lead ++ ASSISTANT_HEAD) = false).
    { apply occurs_false.
      exact (@angle_free_skipped (tl CHANNEL_AHEAD) lead ASSISTANT_HEAD
               Hlead). }
    pose proof (@section_segments ch [(final_ch, SHOWN_CONTENT)] eq_refl
                  (lead ++ ASSISTANT_HEAD) Hc) as H.
    rewrite <- app_assoc in H. rewrite Emsg. exact H. }
  assert (Hb : msg
               = blocks_text
                   [shown_block
                      (lead
                         ++ lit "<|start|><|message|>assistant<|channel|>final<|end|>I'll use the tool:
")] []).
  { rewrite Emsg. unfold blocks_text, block_text, shown_block.
    cbn [b_lead b_gap1 b_name b_gap2 b_payload b_gap3].
    rewrite <- !app_assoc. reflexivity. }
  assert (Hok : forallb block_ok
                  [shown_block
                     (lead
                        ++ lit "<|start|><|message|>assistant<|channel|>final<|end|>I'll use the tool:
")] = true).
  { unfold forallb, block_ok, shown_block.
    cbn [b_lead b_gap1 b_name b_gap2 b_payload b_gap3].
    replace (occurs TOOL_CALL_OPEN
               (lead
                  ++ lit "<|start|><|message|>assistant<|channel|>final<|end|>I'll use the tool:
")) with false; [reflexivity|].
    symmetry. apply occurs_false.
    exact (@angle_free_skipped (tl TOOL_CALL_OPEN) lead _ Hlead). }
  unfold parseHarmony. rewrite !Hs.
  assert (Hlen : 1 < S (List.length msg)).
  { rewrite Emsg, length_app, length_app. simpl. lia. }
  rewrite Hb at 2.
  rewrite (@collect_guarded_blocks J JSON_parse _ [] Hok eq_refl _ []);
    [|exact Hlen].
  unfold decoded_calls, block_call, shown_block.
  cbn [b_lead b_gap1 b_name b_gap2 b_payload b_gap3].
  change (trim (NL ++ SHOWN_PAYLOAD ++ NL)) with SHOWN_PAYLOAD.
  change (trim (lit "tool_name_here")) with (lit "tool_name_here").
  destruct (JSON_parse SHOWN_PAYLOAD); reflexivity.
Qed.

End ShownTurn.

Lemma system_message_parses_as_a_turn_witness :
  forallb tool_angle_free [query_tool] = true
  /\ buildSystemMessage [query_tool]
     = Ok (SYSTEM_HEAD
             ++ lit "namespace search {
  /**
   * Search the workspace
   */
  query: string; // The query
}"
             ++ SYSTEM_USAGE
             ++ lit "<|start|><|message|>assistant<|channel|>final<|end|>"
             ++ SHOWN_CONTENT)
  /\ parseHarmony JSONRef.parse
       (SYSTEM_HEAD
          ++ lit "namespace search {
  /**
   * Search the workspace
   */
  query: string; // The query
}"
          ++ SYSTEM_USAGE
          ++ lit "<|start|><|message|>assistant<|channel|>final<|end|>"
          ++ SHOWN_CONTENT)
     = Some {| analysis := None;
               commentary := None;
               final := Some SHOWN_CONTENT;
               toolCalls :=
                 option_map
                   (fun v => [ {| tc_name := lit "tool_name_here";
                                  tc_parameters := v |} ])
                   (JSONRef.parse SHOWN_PAYLOAD) |}.
Proof.
  split; [reflexivity|]. split; [reflexivity|].
  apply (@system_message_parses_as_a_turn _ JSONRef.parse [query_tool]);
    reflexivity.
Defined.

(** The call the system message yields with the reference decoder. *)
Example system_message_call :
  option_map
    (fun v => [ {| tc_name := lit "tool_name_here"; tc_parameters := v |} ])
    (JSONRef.parse SHOWN_PAYLOAD)
  = Some [ {| tc_name := lit "tool_name_here";
              tc_parameters :=
                JSONRef.JObject
                  [(lit "param1", JSONRef.JString (lit "value1"))] |} ].
Proof. vm_compute. reflexivity. Qed.

(** ** Splitting into lines *)

Lemma split_on_nonempty (c : jschar) (s : jsstring) : split_on c s <> [].
Proof.
  destruct s as [|x s]; simpl; [discriminate|].
  destruct (jschar_eqb x c); [discriminate|].
  destruct (split_on c s); discriminate.
Qed.

(** The lines of two texts joined by a separator are the lines of the
    one followed by the lines of the other. *)
Lemma split_on_sep (c : jschar) (x y : jsstring) :
  split_on c (x ++ c :: y) = split_on c x ++ split_on c y.
Proof.
  induction x as [|a x IH]; simpl.
  - unfold jschar_eqb. rewrite N.eqb_refl. reflexivity.
  - destruct (jschar_eqb a c); [rewrite IH; reflexivity|].
    rewrite IH. pose proof (split_on_nonempty c x) as Hx.
    destruct (split_on c x) as [|p ps]; [congruence | reflexivity].
Qed.

Lemma split_on_single (s : jsstring) :
  no_newline s = true -> split_on 10%N s = [s].
Proof.
  induction s as [|a s IH]; simpl; [reflexivity|].
  intros H. apply andb_true_iff in H as [Ha Hs].
  apply negb_true_iff in Ha. rewrite Ha, (IH Hs). reflexivity.
Qed.

(** ** The event stream *)

Section EventStreamProperties.

Variable J : Type.
Variable JSON_parse : jsstring -> option J.

Lemma sse_lines_eq (line : jsstring) (rest : list jsstring) :
  sse_lines JSON_parse (line :: rest)
  = match starts_with DATA_PREFIX line with
    | Some data =>
        if jsstring_eqb data DONE_SENTINEL then ([], true)
        else
          match JSON_parse data with
          | Some v =>
              let '(ys, d) := sse_lines JSON_parse rest in (v :: ys, d)
          | None => sse_lines JSON_parse rest
          end
    | None => sse_lines JSON_parse rest
    end.
Proof. reflexivity. Qed.

Lemma sse_lines_app (l1 l2 : list jsstring) :
  sse_lines JSON_parse (l1 ++ l2)
  = (fst (sse_lines JSON_parse l1)
       ++ (if snd (sse_lines JSON_parse l1) then []
           else fst (sse_lines JSON_parse l2)),
     snd (sse_lines JSON_parse l1) || snd (sse_lines JSON_parse l2)).
Proof.
  induction l1 as [|line l1 IH].
  - simpl. destruct (sse_lines JSON_parse l2). reflexivity.
  - rewrite <- app_comm_cons, !sse_lines_eq.
    destruct (starts_with DATA_PREFIX line) as [data|]; [|exact IH].
    destruct (jsstring_eqb data DONE_SENTINEL); [reflexivity|].
    destruct (JSON_parse data) as [v|]; [|exact IH].
    rewrite IH. destruct (sse_lines JSON_parse l1) as [ys d]. reflexivity.
Qed.

Lemma sseStream_cons (chunk : jsstring) (chunks : list jsstring) :
  sseStream JSON_parse (chunk :: chunks)
  = fst (sse_lines JSON_parse (split_on 10%N chunk))
      ++ (if snd (sse_lines JSON_parse (split_on 10%N chunk)) then []
          else sseStream JSON_parse chunks).
Proof.
  simpl. destruct (sse_lines JSON_parse (split_on 10%N chunk)) as [ys d].
  destruct d; simpl; [rewrite app_nil_r|]; reflexivity.
Qed.

(** The generator has returned exactly when a line was the sentinel
    line. *)
Lemma sse_lines_returned (lines : list jsstring) :
  snd (sse_lines JSON_parse lines)
  = existsb (fun line => jsstring_eqb line (DATA_PREFIX ++ DONE_SENTINEL))
      lines.
Proof.
  induction lines as [|line lines IH]; [reflexivity|].
  rewrite sse_lines_eq. cbn [existsb].
  destruct (starts_with DATA_PREFIX line) as [data|] eqn:E.
  - apply starts_with_inv in E. subst line.
    destruct (jsstring_eqb data DONE_SENTINEL) eqn:Ed.
    + apply jsstring_eqb_eq in Ed. subst data. reflexivity.
    + change (jsstring_eqb (DATA_PREFIX ++ data)
                (DATA_PREFIX ++ DONE_SENTINEL))
        with (jsstring_eqb data DONE_SENTINEL).
      rewrite Ed.
      destruct (JSON_parse data) as [v|]; [|exact IH].
      destruct (sse_lines JSON_parse lines) as [ys d]. exact IH.
  - replace (jsstring_eqb line (DATA_PREFIX ++ DONE_SENTINEL)) with false;
      [exact IH|].
    symmetry. apply not_true_is_false. intros H.
    apply jsstring_eqb_eq in H. subst line.
    rewrite starts_with_app in E. discriminate.
Qed.

(** X11: a chunk that holds the sentinel line [data: [DONE]] ends the
    stream, and no later chunk is read; after any other chunk the
    stream goes on with the next one.  The sentinel is a whole line,
    compared unit by unit, so a sentinel with a carriage return before
    the newline, or one cut by a chunk end, does not end the stream. *)
Theorem sse_stream_ends_at_sentinel (chunk : jsstring)
    (later : list jsstring) :
  sseStream JSON_parse (chunk :: later)
  = sseStream JSON_parse [chunk]
      ++ (if existsb
               (fun line => jsstring_eqb line (DATA_PREFIX ++ DONE_SENTINEL))
               (split_on 10%N chunk)
          then []
          else sseStream JSON_parse later).
Proof.
  rewrite !sseStream_cons, sse_lines_returned.
  destruct (existsb _ (split_on 10%N chunk)); simpl sseStream;
    rewrite !app_nil_r; reflexivity.
Qed.

Lemma sseStream_line_end (a whole : jsstring) :
  sseStream JSON_parse [a ++ NL; whole]
  = sseStream JSON_parse [a ++ NL ++ whole].
Proof.
  rewrite !sseStream_cons.
  change (a ++ NL ++ whole) with (a ++ 10%N :: whole).
  change (a ++ NL) with (a ++ 10%N :: []).
  rewrite !split_on_sep. rewrite !sse_lines_app.
  change (split_on 10%N []) with [@nil jschar].
  cbn [sseStream].
  change (sse_lines JSON_parse [[]]) with (@nil J, false).
  cbn [fst snd]. rewrite orb_false_r.
  destruct (snd (sse_lines JSON_parse (split_on 10%N a)));
    destruct (snd (sse_lines JSON_parse (split_on 10%N whole)));
    cbn [orb]; rewrite ?app_nil_r; reflexivity.
Qed.

(** X12: chunk ends that fall on line ends do not matter: a stream
    whose chunks, but for the last, each end with a newline yields what
    the same text yields when it arrives as one chunk. *)
Theorem sse_stream_of_whole_lines (chunks : list jsstring)
    (last : jsstring) :
  sseStream JSON_parse (map (fun a => a ++ NL) chunks ++ [last])
  = sseStream JSON_parse
      [List.concat (map (fun a => a ++ NL) chunks) ++ last].
Proof.
  induction chunks as [|a chunks IH]; [reflexivity|].
  change (map (fun a => a ++ NL) (a :: chunks) ++ [last])
    with ((a ++ NL) :: (map (fun a => a ++ NL) chunks ++ [last])).
  change (List.concat (map (fun a => a ++ NL) (a :: chunks)))
    with ((a ++ NL) ++ List.concat (map (fun a => a ++ NL) chunks)).
  rewrite (sseStream_cons (a ++ NL)), IH, <- sseStream_cons.
  rewrite sseStream_line_end.
  rewrite <- !app_assoc. reflexivity.
Qed.

Lemma sse_lines_dropped_last (l : list jsstring) (line : jsstring) :
  sse_lines JSON_parse [line] = ([], false) ->
  sse_lines JSON_parse (l ++ [line]) = sse_lines JSON_parse l.
Proof.
  intros H. rewrite sse_lines_app, H. cbn [fst snd].
  rewrite orb_false_r.
  destruct (sse_lines JSON_parse l) as [ys d]. cbn [fst snd].
  destruct d; rewrite app_nil_r; reflexivity.
Qed.

Lemma sse_lines_dropped_first (line : jsstring) (l : list jsstring) :
  sse_lines JSON_parse [line] = ([], false) ->
  sse_lines JSON_parse (line :: l) = sse_lines JSON_parse l.
Proof.
  intros H. change (line :: l) with ([line] ++ l).
  rewrite sse_lines_app, H. cbn [fst snd].
  destruct (sse_lines JSON_parse l) as [ys d]. reflexivity.
Qed.

(** X13: an event whose line is cut by a chunk end is lost: when the
    first part does not decode and is not the sentinel, and the second
    part does not look like a data line, the stream yields what it
    yields without that line, whatever the two parts decode to
    together. *)
Theorem sse_event_cut_by_chunk_end (x d1 d2 y : jsstring)
    (rest : list jsstring) :
  no_newline d1 = true ->
  no_newline d2 = true ->
  JSON_parse d1 = None ->
  d1 <> DONE_SENTINEL ->
  starts_with DATA_PREFIX d2 = None ->
  sseStream JSON_parse
    ((x ++ NL ++ DATA_PREFIX ++ d1) :: (d2 ++ NL ++ y) :: rest)
  = sseStream JSON_parse ((x ++ NL ++ y) :: rest).
Proof.
  intros H1 H2 Hp Hd Hs.
  assert (Hl1 : sse_lines JSON_parse [DATA_PREFIX ++ d1] = ([], false)).
  { rewrite sse_lines_eq, starts_with_app.
    replace (jsstring_eqb d1 DONE_SENTINEL) with false.
    - rewrite Hp. reflexivity.
    - symmetry. apply not_true_is_false. intros H.
      apply jsstring_eqb_eq in H. contradiction. }
  assert (Hl2 : sse_lines JSON_parse [d2] = ([], false)).
  { rewrite sse_lines_eq, Hs. reflexivity. }
  rewrite (sseStream_cons (x ++ NL ++ DATA_PREFIX ++ d1)).
  rewrite (sseStream_cons (d2 ++ NL ++ y)).
  rewrite (sseStream_cons (x ++ NL ++ y)).
  change (x ++ NL ++ DATA_PREFIX ++ d1) with (x ++ 10%N :: DATA_PREFIX ++ d1).
  change (x ++ NL ++ y) with (x ++ 10%N :: y).
  rewrite !split_on_sep.
  rewrite (@split_on_line d2 y H2).
  rewrite (@split_on_single (DATA_PREFIX ++ d1))
    by (rewrite no_newline_app, H1; reflexivity).
  erewrite sse_lines_dropped_last by exact Hl1.
  erewrite sse_lines_dropped_first by exact Hl2.
  rewrite sse_lines_app. cbn [fst snd].
  destruct (snd (sse_lines JSON_parse (split_on 10%N x)));
    cbn [orb]; rewrite ?app_nil_r; [reflexivity|].
  rewrite <- app_assoc. reflexivity.
Qed.

End EventStreamProperties.

Lemma sse_event_cut_by_chunk_end_witness :
  no_newline (lit "{") = true
  /\ no_newline (lit "}") = true
  /\ JSONRef.parse (lit "{") = None
  /\ lit "{" <> DONE_SENTINEL
  /\ starts_with DATA_PREFIX (lit "}") = None
  /\ sseStream JSONRef.parse
       [lit "data: 1" ++ NL ++ DATA_PREFIX ++ lit "{";
        lit "}" ++ NL ++ lit "data: 2"]
     = sseStream JSONRef.parse [lit "data: 1" ++ NL ++ lit "data: 2"].
Proof.
  split; [reflexivity|]. split; [reflexivity|]. split; [reflexivity|].
  split; [intros H; discriminate H|]. split; [reflexivity|].
  apply (@sse_event_cut_by_chunk_end _ JSONRef.parse
           (lit "data: 1") (lit "{") (lit "}") (lit "data: 2") []);
    try reflexivity.
  intros H; discriminate H.
Defined.

(** The same text in one chunk and with the event cut in two. *)
Example sse_event_whole_and_cut :
  sseStream JSONRef.parse
    [lit "data: 1
data: {}
data: 2"]
  = [JSONRef.JNumber 1 0; JSONRef.JObject []; JSONRef.JNumber 2 0]
  /\ sseStream JSONRef.parse
       [lit "data: 1
data: {"; lit "}
data: 2"]
     = [JSONRef.JNumber 1 0; JSONRef.JNumber 2 0].
Proof. split; vm_compute; reflexivity. Qed.

(** A sentinel line that ends with a carriage return is not the
    sentinel; the stream reads on. *)
Example sse_sentinel_with_carriage_return :
  sseStream JSONRef.parse
    [lit "data: 1" ++ NL ++ lit "data: [DONE]" ++ NL ++ lit "data: 2"]
  = [JSONRef.JNumber 1 0]
  /\ sseStream JSONRef.parse
       [lit "data: 1" ++ [13%N] ++ NL ++ lit "data: [DONE]" ++ [13%N] ++ NL
          ++ lit "data: 2"]
     = [JSONRef.JNumber 1 0; JSONRef.JNumber 2 0].
Proof. split; vm_compute; reflexivity. Qed.

(** ** The content stream *)

Lemma yields_app (a b : list stream_event) :
  yields (a ++ b) = yields a ++ yields b.
Proof.
  induction a as [|[v|e] a IH]; simpl; [reflexivity | rewrite IH | exact IH].
  reflexivity.
Qed.

Lemma contents_app (a b : list JSONRef.json) :
  contents (a ++ b) = contents a ++ contents b.
Proof.
  induction a as [|v a IH]; simpl; [reflexivity|].
  destruct (delta_content v); [rewrite IH; reflexivity | exact IH].
Qed.

(** What is yielded for an event is truthy or the empty string. *)
Lemma delta_content_default (parsed c : JSONRef.json) :
  delta_content parsed = Ok c ->
  value_truthy (Some c) = true \/ c = JSONRef.JString [].
Proof.
  unfold delta_content.
  destruct (get_property (Some parsed) (lit "choices")) as [choices|];
    [|discriminate].
  simpl bind. destruct (get_first choices) as [first|]; [|discriminate].
  simpl bind.
  destruct (get_optional (get_optional first (lit "delta")) (lit "content"))
    as [v|]; [|intros H; injection H as <-; right; reflexivity].
  destruct (value_truthy (Some v)) eqn:E; intros H; injection H as <-;
    [left; exact E | right; reflexivity].
Qed.

Section ResponseStreamProperties.

Variable JSON_parse : jsstring -> option JSONRef.json.

Lemma response_lines_eq (line : jsstring) (rest : list jsstring) :
  response_lines JSON_parse (line :: rest)
  = match starts_with DATA_PREFIX line with
    | Some data =>
        if jsstring_eqb data DONE_SENTINEL then ([], true)
        else
          let '(es, d) := response_lines JSON_parse rest in
          (event_of JSON_parse data :: es, d)
    | None => response_lines JSON_parse rest
    end.
Proof. reflexivity. Qed.

Lemma response_lines_sse (lines : list jsstring) :
  yields (fst (response_lines JSON_parse lines))
  = contents (fst (sse_lines JSON_parse lines))
  /\ snd (response_lines JSON_parse lines)
     = snd (sse_lines JSON_parse lines).
Proof.
  induction lines as [|line lines [IH1 IH2]]; [split; reflexivity|].
  rewrite response_lines_eq, sse_lines_eq.
  destruct (starts_with DATA_PREFIX line) as [data|]; [|split; assumption].
  destruct (jsstring_eqb data DONE_SENTINEL); [split; reflexivity|].
  unfold event_of.
  destruct (response_lines JSON_parse lines) as [es d].
  destruct (JSON_parse data) as [parsed|].
  - destruct (sse_lines JSON_parse lines) as [ys d'].
    cbn [fst snd] in *. split; [|exact IH2].
    cbn [contents]. destruct (delta_content parsed); cbn [yields];
      rewrite IH1; reflexivity.
  - cbn [fst snd] in *. split; [exact IH1 | exact IH2].
Qed.

Lemma response_lines_default (lines : list jsstring) :
  Forall (fun c => value_truthy (Some c) = true \/ c = JSONRef.JString [])
    (yields (fst (response_lines JSON_parse lines))).
Proof.
  induction lines as [|line lines IH]; [constructor|].
  rewrite response_lines_eq.
  destruct (starts_with DATA_PREFIX line) as [data|]; [|exact IH].
  destruct (jsstring_eqb data DONE_SENTINEL); [constructor|].
  destruct (response_lines JSON_parse lines) as [es d].
  cbn [fst] in *. unfold event_of.
  destruct (JSON_parse data) as [parsed|]; [|exact IH].
  destruct (delta_content parsed) as [c|] eqn:E; [|exact IH].
  cbn [yields]. constructor; [exact (delta_content_default _ E) | exact IH].
Qed.

(** X14: [streamResponse] yields the contents of the events [sseStream]
    yields, in the same order and up to the same sentinel; an event
    whose content cannot be read (its [choices] is missing, or is
    [null]) is logged and skipped, not yielded.  Every value it yields
    is truthy or the empty string: a missing, [null], [false], zero or
    empty content comes out as the empty string. *)
Theorem stream_response_yields_contents (chunks : list jsstring) :
  yields (streamResponse JSON_parse chunks)
  = contents (sseStream JSON_parse chunks)
  /\ Forall (fun c => value_truthy (Some c) = true \/ c = JSONRef.JString [])
       (yields (streamResponse JSON_parse chunks)).
Proof.
  induction chunks as [|chunk chunks [IH1 IH2]];
    [split; [reflexivity | constructor]|].
  cbn [streamResponse sseStream].
  destruct (response_lines_sse (split_on 10%N chunk)) as [H1 H2].
  pose proof (response_lines_default (split_on 10%N chunk)) as H3.
  destruct (response_lines JSON_parse (split_on 10%N chunk)) as [es d].
  destruct (sse_lines JSON_parse (split_on 10%N chunk)) as [ys d'].
  cbn [fst snd] in *. subst d'.
  destruct d; [split; assumption|].
  rewrite yields_app, contents_app, H1, IH1.
  split; [reflexivity|].
  rewrite <- H1, <- IH1. apply Forall_app. split; assumption.
Qed.

End ResponseStreamProperties.

(** Events with a content, without one, with a falsy one, and one
    whose [choices] is missing. *)
Example stream_response_events :
  streamResponse JSONRef.parse
    [lit "data: {" ++ QUOTE ++ lit "choices" ++ QUOTE ++ lit ":[{"
       ++ QUOTE ++ lit "delta" ++ QUOTE ++ lit ":{"
       ++ QUOTE ++ lit "content" ++ QUOTE ++ lit ":"
       ++ QUOTE ++ lit "Hi" ++ QUOTE ++ lit "}}]}" ++ NL
       ++ lit "data: {" ++ QUOTE ++ lit "choices" ++ QUOTE ++ lit ":[]}" ++ NL
       ++ lit "data: {" ++ QUOTE ++ lit "choices" ++ QUOTE ++ lit ":[{"
       ++ QUOTE ++ lit "delta" ++ QUOTE ++ lit ":{"
       ++ QUOTE ++ lit "content" ++ QUOTE ++ lit ":0}}]}" ++ NL
       ++ lit "data: {}" ++ NL
       ++ lit "data: {oops" ++ NL
       ++ lit "data: [DONE]" ++ NL
       ++ lit "data: 1"]
  = [Yielded (JSONRef.JString (lit "Hi"));
     Yielded (JSONRef.JString []);
     Yielded (JSONRef.JString []);
     Logged TypeError;
     Logged SyntaxError].
Proof. vm_compute. reflexivity. Qed.

(** ** The streaming parser on a response without tool-call block *)









(** *** Step 2 on a response made of channel segments *)






(** *** The feeds *)

Section StreamingProperties.

Variable J : Type.
Variable JSON_parse : jsstring -> option J.





End StreamingProperties.



(** A channel left open at the end of the stream is flushed. *)
Example stream_unterminated_channel :
  parse_stream JSONRef.parse [lit "<|channel|>final<|end|>partial"]
  = StreamOk {| analysis := None; commentary := None;
                final := Some (lit "partial"); toolCalls := None |}.
Proof. vm_compute. reflexivity. Qed.

(** Fragments that cut through the channel marker, the opening tag and
    the closing tag: no token is missed, and the block is gone from the
    text of the channel. *)
Example stream_cut_tokens :
  parse_stream JSONRef.parse
    [lit "<|chan"; lit "nel|>final<|e"; lit "nd|>Done <tool_";
     lit "call><tool_name>get_time</tool_name><parameters>{}</para";
     []; lit "meters></tool_call>"]
  = StreamOk {| analysis := None; commentary := None;
                final := Some (lit "Done");
                toolCalls := Some [{| tc_name := lit "get_time";
                                      tc_parameters := JSONRef.JObject [] |}] |}.
Proof. vm_compute. reflexivity. Qed.

(** Finalizing twice and feeding after finalize are refused. *)
Example stream_misuse :
  match finalize (initial_state JSONRef.json) with
  | StreamOk (_, st) =>
      finalize st = StreamError ParserAlreadyFinalized
      /\ feed JSONRef.parse st (lit "more")
         = StreamError ParserAlreadyFinalized
  | StreamError _ => False
  end.
Proof. split; reflexivity. Qed.
